(** * Gaussian beam through a thin lens: the calculator and the scene renderer

    A shallow embedding of [visualization.js].  The script has one update
    cycle, [updateVisualization], which reads four form fields, converts
    them to SI units, rejects unusable input, evaluates seven closed-form
    optics formulas, writes six display fields and calls [drawCanvas], which
    redraws a 2D canvas.

    JavaScript numbers are IEEE 754 binary64 values.  The program text is
    embedded once, over an interface [Number] of the arithmetic it uses, and
    the interface is given two interpretations:
    - [Float64]: Rocq's primitive binary64 floats, the numbers the script
      runs on (with NaN, signed zeros, infinities and rounding);
    - [Exact]: the real numbers, the arithmetic the optics formulas are
      written in.
    Statements about what the script computes are made over [Float64];
    algebraic identities of the formulas are made over [Exact]. *)

From Stdlib Require Import ZArith QArith Qreals Reals Lra Lia List String Ascii Bool.
From Stdlib Require Import DecimalString DecimalN Floats.
Import ListNotations.

Set Implicit Arguments.

(* ================================================================== *)
(** ** The arithmetic of the script *)

(** The operators and [Math] functions that [visualization.js] applies to
    numbers.  [lit q] is the numeric literal written [q] in the source;
    [pow2 x] is [x ** 2]; [nle] and [strict_eq] are [<=] and [===];
    [Math_max] and [Math_min] are the two-argument forms, the n-ary calls
    of the source being their left folds. *)
Class Number (num : Type) : Type := {
  lit : Q -> num;
  Math_PI : num;
  nadd : num -> num -> num;
  nsub : num -> num -> num;
  nmul : num -> num -> num;
  ndiv : num -> num -> num;
  nneg : num -> num;
  pow2 : num -> num;
  Math_sqrt : num -> num;
  Math_abs : num -> num;
  Math_max : num -> num -> num;
  Math_min : num -> num -> num;
  isNaN : num -> bool;
  nle : num -> num -> bool;
  strict_eq : num -> num -> bool;
  toFixed : num -> nat -> string
}.

Declare Scope js_scope.
Delimit Scope js_scope with js.
Notation "x + y" := (nadd x y) : js_scope.
Notation "x - y" := (nsub x y) : js_scope.
Notation "x * y" := (nmul x y) : js_scope.
Notation "x / y" := (ndiv x y) : js_scope.
Notation "- x" := (nneg x) : js_scope.
Notation "x <= y" := (nle x y) : js_scope.
Notation "x >= y" := (nle y x) (only parsing) : js_scope.
Notation "x === y" := (strict_eq x y) (at level 70, no associativity) : js_scope.

(* ================================================================== *)
(** ** Text helpers shared by both interpretations of [toFixed] *)

Module Text.

Local Open Scope string_scope.

(** Decimal digits of a natural number, ["0"] for zero. *)
Definition digits (n : Z) : string :=
  NilZero.string_of_uint (N.to_uint (Z.to_N n)).

(** [k] copies of the character ["0"]. *)
Fixpoint zeros (k : nat) : string :=
  match k with
  | O => ""
  | S k' => String "0" (zeros k')
  end.

(** The first [k] characters of a string, and the rest. *)
Fixpoint take (k : nat) (t : string) : string :=
  match k, t with
  | S k', String c t' => String c (take k' t')
  | _, _ => ""
  end.

Fixpoint drop (k : nat) (t : string) : string :=
  match k, t with
  | S k', String _ t' => drop k' t'
  | _, _ => t
  end.

(** Steps 11.b and 11.c of [Number.prototype.toFixed]: the digits of the
    integer [n], padded on the left with zeros to at least [fd + 1]
    characters, with a point before the last [fd] of them. *)
Definition fixed_digits (n : Z) (fd : nat) : string :=
  let m := digits n in
  match fd with
  | O => m
  | S _ =>
      let k := String.length m in
      let m := if (k <=? fd)%nat then zeros (fd + 1 - k) ++ m else m in
      let k := String.length m in
      take (k - fd) m ++ "." ++ drop (k - fd) m
  end.

(** A string without its trailing ["0"] characters. *)
Fixpoint strip_zeros (t : string) : string :=
  match t with
  | EmptyString => EmptyString
  | String c t' =>
      match strip_zeros t' with
      | EmptyString => if Ascii.eqb c "0" then EmptyString else String c EmptyString
      | r => String c r
      end
  end.

End Text.

(* ================================================================== *)
(** ** The program *)

Section Program.

Context {num : Type} `{Number num}.
Local Open Scope js_scope.

(** *** Data *)

(** What [parseFloat] returned for the [value] of each of the four input
    elements, in display units (nm for the wavelength, mm for the rest). *)
Record Inputs : Type := {
  lambda_value : num;
  f_value : num;
  s_value : num;
  w0_value : num
}.

(** The four quantities in meters (lines 26 to 31). *)
Record BeamInput : Type := {
  lambda : num;
  f : num;
  s : num;
  w0 : num
}.

(** The seven derived quantities, in the order the script computes them
    (lines 39 to 57). *)
Record BeamResult : Type := {
  zr : num;
  w0_prime : num;
  alpha : num;
  s_prime : num;
  theta_in : num;
  theta_prime : num;
  zr_prime : num
}.

(** [textContent] of the six output elements. *)
Record Outputs : Type := {
  out_s_prime : string;
  out_w0_prime : string;
  out_zr_in : string;
  out_zr_prime : string;
  out_theta_in : string;
  out_theta_prime : string
}.

(** Calls and property assignments on the 2D context. *)
Inductive cmd : Type :=
| clearRect (x y w h : num)
| beginPath
| moveTo (x y : num)
| lineTo (x y : num)
| closePath
| stroke
| fill
| fillText (text : string) (x y : num)
| strokeStyle (v : string)
| fillStyle (v : string)
| lineWidth (v : num)
| font (v : string)
| textAlign (v : string).

(** The page: the output elements, the canvas size, and the drawing
    surface as the log of the context operations performed on it. *)
Record Page : Type := {
  outputs : Outputs;
  canvas_width : N;
  canvas_height : N;
  surface : list cmd
}.

(** *** Lines 26 to 31: unit conversion *)

Definition convert (i : Inputs) : BeamInput :=
  {| lambda := lambda_value i * lit 1e-9;
     f := f_value i * lit 1e-3;
     s := - s_value i * lit 1e-3;
     w0 := w0_value i * lit 1e-3 |}.

(** *** Lines 33 to 57: guard and formulas *)

(** The two early returns of lines 33 and 34. *)
Definition rejected (i : BeamInput) : bool :=
  existsb isNaN [lambda i; f i; s i; w0 i]
  || ((w0 i <= lit 0) || (lambda i <= lit 0) || (f i <= lit 0)).

Definition formulas (i : BeamInput) : BeamResult :=
  let lambda := lambda i in
  let f := f i in
  let s := s i in
  let w0 := w0 i in
  let zr := (Math_PI * pow2 w0) / lambda in
  let w0_prime := (w0 * f) / Math_sqrt (pow2 (s + f) + pow2 zr) in
  let alpha := w0_prime / w0 in
  let s_prime := f + pow2 alpha * (- s - f) in
  let theta_in := lambda / (Math_PI * w0) in
  let theta_prime := theta_in / alpha in
  let zr_prime := pow2 alpha * zr in
  {| zr := zr; w0_prime := w0_prime; alpha := alpha; s_prime := s_prime;
     theta_in := theta_in; theta_prime := theta_prime; zr_prime := zr_prime |}.

(** The optics calculator: no result on rejected input. *)
Definition calculate (i : BeamInput) : option BeamResult :=
  if rejected i then None else Some (formulas i).

(** *** Lines 60 to 65: the display fields *)

Definition display (r : BeamResult) : Outputs :=
  {| out_s_prime := toFixed (s_prime r * lit 1000) 2;
     out_w0_prime := toFixed (w0_prime r * lit 1000) 3;
     out_zr_in := toFixed (zr r * lit 1000) 2;
     out_zr_prime := toFixed (zr_prime r * lit 1000) 2;
     out_theta_in := toFixed (theta_in r * lit 1000) 3;
     out_theta_prime := toFixed (theta_prime r * lit 1000) 3 |}.

(** *** Drawing *)

(** A drawing run: the operations performed so far, and whether the run
    reached its end ([false]: a loop was still running when the fuel ran
    out, and nothing after it was executed). *)
Definition Draw : Type := (list cmd * bool)%type.

Definition emit (cs : list cmd) : Draw := (cs, true).

Definition andThen (a b : Draw) : Draw :=
  if snd a then (fst a ++ fst b, snd b) else a.

Notation "a ;; b" := (andThen a b) (at level 61, left associativity).

(** The geometry of lines 89 to 106 and 116. *)
Record Layout : Type := {
  canvasWidth : num;
  canvasHeight : num;
  opticalAxisY : num;
  totalDist : num;
  scaleX : num;
  beamWidthAtStart : num;
  beamWidthAtEnd : num;
  maxHeight : num;
  scaleY : num;
  lensX : num;
  lensHeight : num
}.

Definition layout (width height : N) (i : BeamInput) (r : BeamResult) : Layout :=
  let f := f i in
  let s := s i in
  let w0 := w0 i in
  let zr := zr r in
  let s_prime := s_prime r in
  let w0_prime := w0_prime r in
  let zr_prime := zr_prime r in
  let canvasWidth := lit (inject_Z (Z.of_N width)) in
  let canvasHeight := lit (inject_Z (Z.of_N height)) in
  let opticalAxisY := canvasHeight / lit 2 in
  let totalDist :=
    Math_max (Math_max (Math_max (Math_max (- s) s_prime) f)
                       (Math_abs (s + f)))
             (Math_abs (s_prime - f)) * lit 2.2 in
  let scaleX := canvasWidth / totalDist in
  let beamWidthAtStart :=
    w0 * Math_sqrt (lit 1 + pow2 ((- totalDist / lit 2 - s) / zr)) in
  let beamWidthAtEnd :=
    w0_prime * Math_sqrt (lit 1 + pow2 ((totalDist / lit 2 - s_prime) / zr_prime)) in
  let maxHeight := Math_max beamWidthAtStart beamWidthAtEnd in
  let scaleY := canvasHeight / (maxHeight * lit 2.5) in
  let lensX := canvasWidth / lit 2 in
  let lensHeight := Math_min (maxHeight * scaleY * lit 1.5) (canvasHeight / lit 2.2) in
  {| canvasWidth := canvasWidth; canvasHeight := canvasHeight;
     opticalAxisY := opticalAxisY; totalDist := totalDist; scaleX := scaleX;
     beamWidthAtStart := beamWidthAtStart; beamWidthAtEnd := beamWidthAtEnd;
     maxHeight := maxHeight; scaleY := scaleY; lensX := lensX;
     lensHeight := lensHeight |}.

Section Beam.

(** [drawBeam] is nested in [drawCanvas] and reads [lensX], [scaleX],
    [scaleY] and [opticalAxisY] from it. *)
Variable g : Layout.
Variables waistPos waistRadius rayleighRange startZ endZ : num.

(** Lines 139 to 149: [for (let z = startZ; z <= endZ; z += 1 / scaleX)]. *)
Fixpoint top_envelope (fuel : nat) (z : num) : Draw :=
  if z <= endZ then
    match fuel with
    | O => ([], false)
    | S fuel' =>
        let x_canvas := lensX g + z * scaleX g in
        let w_z :=
          waistRadius
          * Math_sqrt (lit 1 + pow2 ((z - waistPos) / rayleighRange)) in
        let y_canvas := opticalAxisY g - w_z * scaleY g in
        emit [if z === startZ then moveTo x_canvas y_canvas
              else lineTo x_canvas y_canvas]
        ;; top_envelope fuel' (z + lit 1 / scaleX g)
    end
  else emit [].

(** Lines 151 to 157: [for (let z = endZ; z >= startZ; z -= 1 / scaleX)]. *)
Fixpoint bottom_envelope (fuel : nat) (z : num) : Draw :=
  if z >= startZ then
    match fuel with
    | O => ([], false)
    | S fuel' =>
        let x_canvas := lensX g + z * scaleX g in
        let w_z :=
          waistRadius
          * Math_sqrt (lit 1 + pow2 ((z - waistPos) / rayleighRange)) in
        let y_canvas := opticalAxisY g + w_z * scaleY g in
        emit [lineTo x_canvas y_canvas]
        ;; bottom_envelope fuel' (z - lit 1 / scaleX g)
    end
  else emit [].

(** Lines 136 to 161.  [fuel] bounds the iterations of each loop. *)
Definition drawBeam (fuel : nat) : Draw :=
  emit [beginPath]
  ;; top_envelope fuel startZ
  ;; bottom_envelope fuel endZ
  ;; emit [closePath; fillStyle "rgba(255, 100, 100, 0.3)"; fill].

End Beam.

(** Lines 173 to 189. *)
Definition drawAnnotationLine (x1 y1 x2 y2 : num) (label : string) : list cmd :=
  [ beginPath; moveTo x1 y1; lineTo x2 y2; strokeStyle "#333"; stroke;
    moveTo x1 (y1 - lit 5); lineTo x1 (y1 + lit 5);
    moveTo x2 (y2 - lit 5); lineTo x2 (y2 + lit 5);
    strokeStyle "#555"; stroke;
    fillText label ((x1 + x2) / lit 2) (y1 - lit 8) ].

(** Lines 86 to 132: clear, optical axis, lens. *)
Definition draw_axis_and_lens (g : Layout) : list cmd :=
  let canvasWidth := canvasWidth g in
  let canvasHeight := canvasHeight g in
  let opticalAxisY := opticalAxisY g in
  let lensX := lensX g in
  let lensHeight := lensHeight g in
  [ clearRect (lit 0) (lit 0) canvasWidth canvasHeight;
    beginPath; moveTo (lit 0) opticalAxisY; lineTo canvasWidth opticalAxisY;
    strokeStyle "black"; stroke;
    beginPath;
    moveTo lensX (opticalAxisY - lensHeight);
    lineTo lensX (opticalAxisY + lensHeight);
    strokeStyle "#4A90E2"; lineWidth (lit 2); stroke;
    moveTo lensX (opticalAxisY - lensHeight);
    lineTo (lensX + lit 5) (opticalAxisY - lensHeight + lit 10);
    moveTo lensX (opticalAxisY - lensHeight);
    lineTo (lensX - lit 5) (opticalAxisY - lensHeight + lit 10);
    moveTo lensX (opticalAxisY + lensHeight);
    lineTo (lensX + lit 5) (opticalAxisY + lensHeight - lit 10);
    moveTo lensX (opticalAxisY + lensHeight);
    lineTo (lensX - lit 5) (opticalAxisY + lensHeight - lit 10);
    stroke; lineWidth (lit 1) ].

(** Lines 168 to 272: the annotations.  The labels of the source that
    contain characters outside ASCII are written here in UTF-8. *)
Definition draw_annotations (g : Layout) (i : BeamInput) (r : BeamResult) : list cmd :=
  let f := f i in
  let s := s i in
  let w0 := w0 i in
  let zr := zr r in
  let theta_in := theta_in r in
  let s_prime := s_prime r in
  let w0_prime := w0_prime r in
  let zr_prime := zr_prime r in
  let theta_prime := theta_prime r in
  let opticalAxisY := opticalAxisY g in
  let scaleX := scaleX g in
  let scaleY := scaleY g in
  let lensX := lensX g in
  let f_y_offset := opticalAxisY - lit 50 in
  let w0_x := lensX + s * scaleX in
  let w0_y := opticalAxisY in
  let w0_prime_x := lensX + s_prime * scaleX in
  let w0_prime_y := opticalAxisY in
  let textY := lit 30 in
  [ font "12px Arial"; fillStyle "black"; textAlign "center" ]
  ++ drawAnnotationLine (lensX + s * scaleX) (opticalAxisY + lit 40)
       lensX (opticalAxisY + lit 40)
       ("s = " ++ toFixed (- s * lit 1000) 1 ++ " mm")%string
  ++ drawAnnotationLine lensX (opticalAxisY + lit 60)
       (lensX + s_prime * scaleX) (opticalAxisY + lit 60)
       ("s' = " ++ toFixed (s_prime * lit 1000) 1 ++ " mm")%string
  ++ drawAnnotationLine (lensX - f * scaleX) f_y_offset lensX f_y_offset
       ("f = " ++ toFixed (f * lit 1000) 1 ++ " mm")%string
  ++ drawAnnotationLine lensX (f_y_offset - lit 20)
       (lensX + f * scaleX) (f_y_offset - lit 20)
       ("f = " ++ toFixed (f * lit 1000) 1 ++ " mm")%string
  ++ [ beginPath;
       moveTo w0_x (w0_y - w0 * scaleY);
       lineTo w0_x (w0_y + w0 * scaleY);
       strokeStyle "red"; stroke;
       textAlign "left";
       fillText ("w₀ = " ++ toFixed (w0 * lit 1000) 3 ++ " mm")%string
         (w0_x + lit 8) (w0_y - lit 5);
       beginPath;
       moveTo w0_prime_x (w0_prime_y - w0_prime * scaleY);
       lineTo w0_prime_x (w0_prime_y + w0_prime * scaleY);
       strokeStyle "blue"; stroke;
       fillText ("w₀' = " ++ toFixed (w0_prime * lit 1000) 3 ++ " mm")%string
         (w0_prime_x + lit 8) (w0_prime_y - lit 5);
       textAlign "center";
       fillText ("zʀ = " ++ toFixed (zr * lit 1000) 2 ++ " mm")%string
         (lensX / lit 2) textY;
       fillText ("θ = " ++ toFixed (theta_in * lit 1000) 3 ++ " mrad")%string
         (lensX / lit 2) (textY + lit 18);
       fillText ("zʀ' = " ++ toFixed (zr_prime * lit 1000) 2 ++ " mm")%string
         (lensX + lensX / lit 2) textY;
       fillText ("θ' = " ++ toFixed (theta_prime * lit 1000) 3 ++ " mrad")%string
         (lensX + lensX / lit 2) (textY + lit 18) ].

(** The two calls of lines 164 and 165. *)
Definition input_beam (g : Layout) (i : BeamInput) (r : BeamResult) (fuel : nat) : Draw :=
  drawBeam g (s i) (w0 i) (zr r) (- totalDist g / lit 2) (lit 0) fuel.

Definition output_beam (g : Layout) (r : BeamResult) (fuel : nat) : Draw :=
  drawBeam g (s_prime r) (w0_prime r) (zr_prime r) (lit 0) (totalDist g / lit 2) fuel.

(** Lines 82 to 273. *)
Definition drawCanvas (fuel : nat) (width height : N)
           (i : BeamInput) (r : BeamResult) : Draw :=
  let g := layout width height i r in
  emit (draw_axis_and_lens g)
  ;; input_beam g i r fuel
  ;; output_beam g r fuel
  ;; emit (draw_annotations g i r).

(** *** Lines 23 to 80: the update cycle *)

(** The page after one cycle, and whether the cycle ran to its end within
    [fuel] iterations of each envelope loop. *)
Definition updateVisualization (fuel : nat) (i : Inputs) (page : Page) : Page * bool :=
  let input := convert i in
  match calculate input with
  | None => (page, true)
  | Some r =>
      let d := drawCanvas fuel (canvas_width page) (canvas_height page) input r in
      ({| outputs := display r;
          canvas_width := canvas_width page;
          canvas_height := canvas_height page;
          surface := surface page ++ fst d |}, snd d)
  end.

End Program.

Arguments Inputs : clear implicits.
Arguments BeamInput : clear implicits.
Arguments BeamResult : clear implicits.
Arguments cmd : clear implicits.
Arguments Page : clear implicits.
Arguments Layout : clear implicits.
Arguments Draw : clear implicits.

(* ================================================================== *)
(** ** Binary64: the numbers of the script *)

Module Float64.

Local Open Scope float_scope.

(** An integer below 2^63 in magnitude as a double (exact below 2^53). *)
Definition of_Z (z : Z) : float :=
  match z with
  | Z0 => zero
  | Zpos _ => of_uint63 (Uint63.of_Z z)
  | Zneg p => - of_uint63 (Uint63.of_Z (Zpos p))
  end.

(** A decimal literal [n/d]: one correctly rounded division of two
    integers, which is the double nearest to [n/d] whenever both are
    below 2^53, as they are for every literal of the script. *)
Definition literal (q : Q) : float :=
  of_Z (Qnum q) / of_Z (Zpos (Qden q)).

(** [Math.PI], the double nearest to pi. *)
Definition PI : float := 0x1.921fb54442d18p+1.

(** [x ** 2].  ECMAScript leaves the result of [**] on finite operands to
    the implementation as an approximation of the exact power; the square
    is taken here correctly rounded, which is IEEE multiplication. *)
Definition square (x : float) : float := x * x.

(** [Math.max] and [Math.min] on two arguments: NaN if either is NaN,
    and +0 counts as larger than -0. *)
Definition max (a b : float) : float :=
  if is_nan a || is_nan b then nan
  else if a <? b then b
  else if b <? a then a
  else if get_sign a then b else a.

Definition min (a b : float) : float :=
  if is_nan a || is_nan b then nan
  else if a <? b then a
  else if b <? a then b
  else if get_sign a then a else b.

(** *** [Number.prototype.toFixed] *)

(** Step 11.a for the positive value [m * 2^e] and [fd] digits: the
    integer [n] for which [n / 10^fd] is nearest to it, the larger one on
    a tie. *)
Definition nearest_scaled (m : positive) (e : Z) (fd : nat) : Z :=
  let p := (Zpos m * 10 ^ Z.of_nat fd)%Z in
  match e with
  | Zneg k => ((2 * p + 2 ^ Zpos k) / 2 ^ (Zpos k + 1))%Z
  | _ => (p * 2 ^ e)%Z
  end.

(** [Number::toString] for a double [m * 2^e] that is at least 10^21
    (so [e] is positive and the value an integer): the shortest digit
    string [s] with [s * 10^(n-k)] rounding to the double, nearest to it
    when several have that length, in exponent form. *)
Section Shortest.

Variables (m : positive) (e : Z).

Let X : Z := (Zpos m * 2 ^ e)%Z.

(** Twice the distance down and up to the midpoints with the
    neighbouring doubles. *)
Let below : Z := if (Zpos m =? 2 ^ 52)%Z then (2 ^ (e - 1))%Z else (2 ^ e)%Z.
Let above : Z := (2 ^ e)%Z.

(** [v] rounds to the double (ties go to the even significand). *)
Definition rounds_here (v : Z) : bool :=
  let d := (2 * (v - X))%Z in
  if Z.even (Zpos m) then ((- below <=? d) && (d <=? above))%Z
  else ((- below <? d) && (d <? above))%Z.

(** The candidate with [k] significant digits, if there is one. *)
Definition candidate (k : nat) : option Z :=
  let D := String.length (Text.digits X) in
  let p := (10 ^ Z.of_nat (D - k))%Z in
  let lo := (X / p * p)%Z in
  let hi := (lo + p)%Z in
  match rounds_here lo, rounds_here hi with
  | true, true =>
      if (X - lo <? hi - X)%Z then Some lo
      else if (hi - X <? X - lo)%Z then Some hi
      else if Z.even (X / p) then Some lo else Some hi
  | true, false => Some lo
  | false, true => Some hi
  | false, false => None
  end.

Fixpoint shortest (tries : nat) (k : nat) : Z :=
  match tries with
  | O => X
  | S tries' =>
      match candidate k with
      | Some v => v
      | None => shortest tries' (S k)
      end
  end.

Definition toString_large : string :=
  let all := Text.digits (shortest 17 1) in
  let n := String.length all in
  let sig := Text.strip_zeros all in
  let mantissa :=
    match sig with
    | String c EmptyString => sig
    | String c rest => String c (String "." rest)
    | EmptyString => sig
    end in
  (mantissa ++ "e+" ++ Text.digits (Z.of_nat (n - 1)))%string.

End Shortest.

Definition to_fixed (x : float) (fd : nat) : string :=
  match Prim2SF x with
  | S754_nan => "NaN"
  | S754_infinity false => "Infinity"
  | S754_infinity true => "-Infinity"
  | S754_zero _ => Text.fixed_digits 0 fd
  | S754_finite sign m e =>
      let magnitude :=
        if 1e21 <=? abs x then toString_large m e
        else Text.fixed_digits (nearest_scaled m e fd) fd in
      ((if sign then "-" else "") ++ magnitude)%string
  end.

#[global] Instance number : Number float := {|
  lit := literal;
  Math_PI := PI;
  nadd := add;
  nsub := sub;
  nmul := mul;
  ndiv := div;
  nneg := opp;
  pow2 := square;
  Math_sqrt := PrimFloat.sqrt;
  Math_abs := PrimFloat.abs;
  Math_max := max;
  Math_min := min;
  isNaN := is_nan;
  nle := leb;
  strict_eq := eqb;
  toFixed := to_fixed
|}.

End Float64.

(* ================================================================== *)
(** ** Exact arithmetic: the numbers of the formulas *)

Module Exact.

Local Open Scope R_scope.

Definition leb (x y : R) : bool := if Rle_dec x y then true else false.
Definition ltb (x y : R) : bool := if Rlt_dec x y then true else false.
Definition eqb (x y : R) : bool := if Req_dec_T x y then true else false.

(** [toFixed] without rounding to a double: the sign, then the digits of
    the integer nearest to [|x| * 10^fd] (the larger one on a tie). *)
Definition to_fixed (x : R) (fd : nat) : string :=
  let n := (up (Rabs x * 10 ^ fd + / 2) - 1)%Z in
  ((if ltb x 0 then "-" else "") ++ Text.fixed_digits n fd)%string.

#[global] Instance number : Number R := {|
  lit := Q2R;
  Math_PI := PI;
  nadd := Rplus;
  nsub := Rminus;
  nmul := Rmult;
  ndiv := Rdiv;
  nneg := Ropp;
  pow2 := fun x => x ^ 2;
  Math_sqrt := R_sqrt.sqrt;
  Math_abs := Rabs;
  Math_max := Rmax;
  Math_min := Rmin;
  isNaN := fun _ => false;
  nle := leb;
  strict_eq := eqb;
  toFixed := to_fixed
|}.

End Exact.

(* ================================================================== *)
(** ** The specification's vocabulary *)

Module Spec.
Section Spec.

Context {num : Type} `{Number num}.
Local Open Scope js_scope.

(** *** The seven formulas of the optics calculator *)

Definition zR (i : BeamInput num) : num :=
  Math_PI * pow2 (w0 i) / lambda i.

Definition w0' (i : BeamInput num) : num :=
  w0 i * f i / Math_sqrt (pow2 (s i + f i) + pow2 (zR i)).

Definition magnification (i : BeamInput num) : num :=
  w0' i / w0 i.

Definition s' (i : BeamInput num) : num :=
  f i + pow2 (magnification i) * (- s i - f i).

Definition theta (i : BeamInput num) : num :=
  lambda i / (Math_PI * w0 i).

Definition theta' (i : BeamInput num) : num :=
  theta i / magnification i.

Definition zR' (i : BeamInput num) : num :=
  pow2 (magnification i) * zR i.

Definition result (i : BeamInput num) : BeamResult num :=
  {| zr := zR i; w0_prime := w0' i; alpha := magnification i;
     s_prime := s' i; theta_in := theta i; theta_prime := theta' i;
     zr_prime := zR' i |}.

(** *** Unit policy *)





(** *** Renderer *)

(** The largest of the five lengths that the span has to cover. *)
Definition widest (i : BeamInput num) (r : BeamResult num) : num :=
  Math_max (Math_abs (s i))
    (Math_max (s_prime r)
       (Math_max (f i)
          (Math_max (Math_abs (s i + f i)) (Math_abs (s_prime r - f i))))).

(** The Gaussian beam radius law. *)
Definition beam_radius (waistPos waistRadius rayleighRange z : num) : num :=
  waistRadius * Math_sqrt (lit 1 + pow2 ((z - waistPos) / rayleighRange)).

Section Envelope.

Variable g : Layout num.
Variables waistPos waistRadius rayleighRange startZ endZ : num.

(** The positions the top boundary is sampled at, left to right, and
    the bottom boundary, right to left, within [fuel] steps each. *)
Fixpoint ascending (fuel : nat) (z : num) : list num :=
  if z <= endZ then
    match fuel with
    | O => []
    | S fuel' => z :: ascending fuel' (z + lit 1 / scaleX g)
    end
  else [].

Fixpoint descending (fuel : nat) (z : num) : list num :=
  if z >= startZ then
    match fuel with
    | O => []
    | S fuel' => z :: descending fuel' (z - lit 1 / scaleX g)
    end
  else [].

(** The distance from the optical axis, in pixels, at position [z]. *)
Definition offset (z : num) : num :=
  beam_radius waistPos waistRadius rayleighRange z * scaleY g.

Definition above_axis (z : num) : num * num :=
  (lensX g + z * scaleX g, opticalAxisY g - offset z).

Definition below_axis (z : num) : num * num :=
  (lensX g + z * scaleX g, opticalAxisY g + offset z).

End Envelope.


(** The fill style in force at each [fill] of a run that starts with
    fill style [current]. *)
Fixpoint tints (current : string) (cs : list (cmd num)) : list string :=
  match cs with
  | [] => []
  | fillStyle v :: cs' => tints v cs'
  | fill :: cs' => current :: tints current cs'
  | _ :: cs' => tints current cs'
  end.

(** The fill style in force after a run. *)
Fixpoint style_after (current : string) (cs : list (cmd num)) : string :=
  match cs with
  | [] => current
  | fillStyle v :: cs' => style_after v cs'
  | _ :: cs' => style_after current cs'
  end.

(** Two envelopes were filled, in different tints. *)
Definition distinct_tints (current : string) (cs : list (cmd num)) : Prop :=
  match tints current cs with
  | [a; b] => a <> b
  | _ => False
  end.

End Spec.
End Spec.

(** *** Validity of a [BeamInput] *)

Module Valid.

(** Over doubles: no NaN, and wavelength, focal length and waist
    strictly positive. *)
Definition double (i : BeamInput float) : bool :=
  (negb (is_nan (lambda i)) && negb (is_nan (f i))
   && negb (is_nan (s i)) && negb (is_nan (w0 i))
   && (zero <? lambda i) && (zero <? f i) && (zero <? w0 i))%float.

(** Over the reals there is no NaN. *)
Definition exact (i : BeamInput R) : Prop :=
  (0 < lambda i /\ 0 < f i /\ 0 < w0 i)%R.

(** A component that is plus or minus infinity. *)
Definition has_infinity (i : BeamInput float) : bool :=
  is_infinity (lambda i) || is_infinity (f i)
  || is_infinity (s i) || is_infinity (w0 i).

(** What [parseFloat] delivered cannot be used: a NaN among the four
    values, or a wavelength, focal length or waist that is not positive,
    as entered or once converted to meters. *)
Inductive unusable (i : Inputs float) : Prop :=
| not_a_number (x : float) :
    In x [lambda_value i; f_value i; s_value i; w0_value i] ->
    is_nan x = true -> unusable i
| not_positive (x : float) :
    In x [lambda_value i; f_value i; w0_value i] ->
    (x <=? zero)%float = true -> unusable i
| not_positive_in_meters (x : float) :
    In x [lambda (convert i); f (convert i); w0 (convert i)] ->
    (x <=? zero)%float = true -> unusable i.

End Valid.

(** *** Concrete pages and inputs *)

Module Scenario.

Local Open Scope float_scope.

Definition blank : Outputs :=
  {| out_s_prime := ""; out_w0_prime := ""; out_zr_in := "";
     out_zr_prime := ""; out_theta_in := ""; out_theta_prime := "" |}.

(** A page with an 800 by 400 canvas on which nothing was drawn yet. *)
Definition page : Page float :=
  {| outputs := blank; canvas_width := 800; canvas_height := 400;
     surface := [] |}.

(** A helium-neon beam: the field texts ["632.8"], ["100"], ["150"] and
    ["0.5"]. *)
Definition helium_neon : Inputs float :=
  {| lambda_value := Float64.literal 632.8; f_value := 100;
     s_value := 150; w0_value := 0.5 |}.

(** The same with the wavelength field at 0. *)
Definition zero_wavelength : Inputs float :=
  {| lambda_value := 0; f_value := 100; s_value := 150; w0_value := 0.5 |}.


(** An infinite wavelength, in meters, with the other three as above. *)
Definition infinite_wavelength : BeamInput float :=
  {| lambda := infinity; f := f (convert helium_neon);
     s := s (convert helium_neon); w0 := w0 (convert helium_neon) |}.

(** The field texts ["Infinity"], ["100"], ["150"] and ["0.5"]. *)
Definition infinite_wavelength_entered : Inputs float :=
  {| lambda_value := infinity; f_value := 100; s_value := 150; w0_value := 0.5 |}.

(** A waist of 2^-540 mm (about 2.8e-163 mm) at the front focal point
    of a 100 mm lens. *)
Definition tiny_waist : Inputs float :=
  {| lambda_value := Float64.literal 632.8; f_value := 100;
     s_value := 100; w0_value := 0x1p-540 |}.



(** A focal length of 2^-1060 mm with the object at the lens. *)
Definition tiny_focal_length : Inputs float :=
  {| lambda_value := Float64.literal 632.8; f_value := 0x1p-1060;
     s_value := 0; w0_value := 0.5 |}.



End Scenario.

(** *** The sign of a rounded result *)

(** [r] is a zero, an infinity or a finite number of sign [sx]. *)
Definition signed_as (sx : bool) (r : spec_float) : Prop :=
  match r with
  | S754_zero s | S754_infinity s | S754_finite s _ _ => s = sx
  | S754_nan => False
  end.

(** *** The order of doubles as an order of integers *)

(** The rank of the positive double [m * 2^e] in its format: exponent
    first, then significand ([2^53] is 9007199254740992 and the least
    exponent is -1074). *)
Definition magnitude_rank (m : positive) (e : Z) : Z :=
  (e + 1075) * 9007199254740992 + Zpos m.

(** Ranks grow with the value; both zeros (and NaN, which is outside the
    order) have rank 0, and the infinities lie beyond every finite rank. *)
Definition rank (x : spec_float) : Z :=
  match x with
  | S754_zero _ | S754_nan => 0
  | S754_infinity false => 18906111235701342208
  | S754_infinity true => - 18906111235701342208
  | S754_finite false m e => magnitude_rank m e
  | S754_finite true m e => - magnitude_rank m e
  end.

Definition frank (a : float) : Z := rank (Prim2SF a).

(* ================================================================== *)
(** ** Reading the form: [parseFloat] *)

(** [parseFloat] as ECMAScript has it: leading white space is dropped,
    the longest prefix that is a [StrDecimalLiteral] is taken, and its
    mathematical value is rounded to the nearest double; a text with no
    such prefix gives NaN.  The [value] of an input element is modelled,
    like the labels of the canvas, as the bytes of its UTF-8 encoding. *)
Module Parse.

Local Open Scope string_scope.

(** *** [TrimString(inputString, start)] *)

(** The code points of [WhiteSpace] and [LineTerminator], by the bytes
    of their encoding: TAB, LF, VT, FF, CR and SP; U+00A0; U+1680,
    U+2000 to U+200A, U+2028, U+2029, U+202F, U+205F, U+3000 and
    U+FEFF. *)
Definition space1 (a : ascii) : bool :=
  let n := N_of_ascii a in
  ((9 <=? n) && (n <=? 13) || (n =? 32))%N.

Definition space2 (a b : ascii) : bool :=
  ((N_of_ascii a =? 194) && (N_of_ascii b =? 160))%N.

Definition space3 (a b c : ascii) : bool :=
  let x := N_of_ascii a in
  let y := N_of_ascii b in
  let z := N_of_ascii c in
  ((x =? 225) && (y =? 154) && (z =? 128)
   || (x =? 226) && (y =? 128)
      && ((128 <=? z) && (z <=? 138) || (z =? 168) || (z =? 169) || (z =? 175))
   || (x =? 226) && (y =? 129) && (z =? 159)
   || (x =? 227) && (y =? 128) && (z =? 128)
   || (x =? 239) && (y =? 187) && (z =? 191))%N.

Fixpoint trim_start (t : string) : string :=
  match t with
  | String a rest =>
      if space1 a then trim_start rest
      else
        match rest with
        | String b rest2 =>
            if space2 a b then trim_start rest2
            else
              match rest2 with
              | String c rest3 => if space3 a b c then trim_start rest3 else t
              | EmptyString => t
              end
        | EmptyString => t
        end
  | EmptyString => t
  end.

(** *** [StrDecimalLiteral] *)

Definition is_digit (c : ascii) : bool :=
  ((48 <=? N_of_ascii c) && (N_of_ascii c <=? 57))%N.

Definition digit (c : ascii) : Z := Z.of_N (N_of_ascii c) - 48.

(** The longest run of decimal digits at the start of a text, read on top
    of [acc]: the number, how many digits were read, and the rest. *)
Fixpoint digits (acc : Z) (t : string) : Z * nat * string :=
  match t with
  | String c rest =>
      if is_digit c
      then let '(v, k, r) := digits (10 * acc + digit c) rest in (v, S k, r)
      else (acc, O, t)
  | EmptyString => (acc, O, t)
  end.

Definition number (acc : Z) (t : string) : Z := fst (fst (digits acc t)).

(** What a [StrDecimalLiteral] denotes: an infinity, or
    [digits * 10^exponent] with a sign. *)
Inductive literal : Type :=
| infinite (negative : bool)
| decimal (negative : bool) (digits : Z) (exponent : Z).

(** The [ExponentPart] at the start of a text, 0 when there is none: an
    [e] or [E] that no digit follows is not part of the literal. *)
Definition exponent_part (t : string) : Z :=
  match t with
  | String c rest =>
      if (Ascii.eqb c "e" || Ascii.eqb c "E")%bool then
        match rest with
        | String "+" rest' => number 0 rest'
        | String "-" rest' => - number 0 rest'
        | _ => number 0 rest
        end
      else 0%Z
  | EmptyString => 0%Z
  end.

(** The longest prefix that is a [StrUnsignedDecimalLiteral]:
    [Infinity], or digits with an optional point and more digits (at
    least one digit in all) and an optional exponent. *)
Definition unsigned (negative : bool) (t : string) : option literal :=
  if String.prefix "Infinity" t then Some (infinite negative)
  else
    let '(i, ki, after_int) := digits 0 t in
    match after_int with
    | String "." rest =>
        let '(m, kf, after_frac) := digits i rest in
        if (ki + kf =? 0)%nat then None
        else Some (decimal negative m (exponent_part after_frac - Z.of_nat kf))
    | _ =>
        if (ki =? 0)%nat then None
        else Some (decimal negative i (exponent_part after_int))
    end.

(** The longest prefix that is a [StrDecimalLiteral]. *)
Definition prefix (t : string) : option literal :=
  match t with
  | String "+" rest => unsigned false rest
  | String "-" rest => unsigned true rest
  | _ => unsigned false t
  end.

(** Steps 2 to 5 of [parseFloat]: the literal that the longest prefix of
    the trimmed text is, if there is one. *)
Definition read (t : string) : option literal := prefix (trim_start t).

(** *** The Number value of a literal *)

(** The double nearest to [m * 10^e], ties to the even significand: an
    integer is rounded as it is; a quotient [m / 10^k] is divided with
    remainder, to a quotient of at least 53 bits where the exponent range
    allows it, and rounded by the location of the remainder.  (The
    standard lets an implementation cut a literal of more than 20
    significant digits before it rounds; the engines of the browsers
    round the literal as it stands, and so does this definition.) *)
Definition nearest (m : Z) (e : Z) : spec_float :=
  match m, e with
  | Zpos p, Zneg k =>
      let '(q, e', l) := SFdiv_core_binary prec emax m 0 (10 ^ Zpos k) 0 in
      binary_round_aux prec emax false q e' l
  | _, _ => binary_normalize prec emax (m * 10 ^ e) 0 false
  end.

Definition value (l : literal) : float :=
  match l with
  | infinite false => infinity
  | infinite true => neg_infinity
  | decimal negative m e =>
      let x := SF2Prim (nearest m e) in
      if negative then (- x)%float else x
  end.

(** *** Texts *)

(** A text of decimal digits only. *)
Fixpoint all_digits (t : string) : bool :=
  match t with
  | String c rest => is_digit c && all_digits rest
  | EmptyString => true
  end.

(** A text that cannot carry on a number: it is empty, or starts with a
    character that is neither a digit nor an exponent indicator. *)
Definition stops (t : string) : bool :=
  match t with
  | String c _ => negb (is_digit c || Ascii.eqb c "e" || Ascii.eqb c "E")
  | EmptyString => true
  end.

(** A character that can open a text that [parseFloat] reads as a
    number: white space, a byte of a character outside ASCII (which may
    encode white space), a digit, a sign, a point or the letter I. *)
Definition opens (c : ascii) : bool :=
  space1 c || (128 <=? N_of_ascii c)%N || is_digit c
  || Ascii.eqb c "+" || Ascii.eqb c "-" || Ascii.eqb c "." || Ascii.eqb c "I".

(** The first character of a text, ["?"] for the empty text. *)
Definition first_char (t : string) : ascii :=
  match t with
  | String c _ => c
  | EmptyString => "?"%char
  end.

End Parse.

(** [parseFloat(string)]: not a number when no prefix is a literal. *)
Definition parseFloat (t : string) : float :=
  match Parse.read t with
  | Some l => Parse.value l
  | None => nan
  end.

(* ================================================================== *)
(** ** The form and its events *)

Module Form.

(** The [value] of the four input elements (lines 3 to 8). *)
Record Fields : Type := {
  lambda_text : string;
  focalLength_text : string;
  s_text : string;
  w0_text : string
}.

(** Lines 26 to 31: what [parseFloat] makes of them. *)
Definition read (t : Fields) : Inputs float :=
  {| lambda_value := parseFloat (lambda_text t);
     f_value := parseFloat (focalLength_text t);
     s_value := parseFloat (s_text t);
     w0_value := parseFloat (w0_text t) |}.

(** The keys of [inputs], in the order [for ... in] visits them. *)
Inductive key : Type := key_lambda | key_f | key_s | key_w0.

Definition keys : list key := [key_lambda; key_f; key_s; key_w0].

Definition same_key (a b : key) : bool :=
  match a, b with
  | key_lambda, key_lambda | key_f, key_f | key_s, key_s | key_w0, key_w0 => true
  | _, _ => false
  end.

Definition value (k : key) (t : Fields) : string :=
  match k with
  | key_lambda => lambda_text t
  | key_f => focalLength_text t
  | key_s => s_text t
  | key_w0 => w0_text t
  end.

(** The fields after the [value] of the element of key [k] has become
    [text]. *)
Definition type_in (k : key) (text : string) (t : Fields) : Fields :=
  match k with
  | key_lambda =>
      {| lambda_text := text; focalLength_text := focalLength_text t;
         s_text := s_text t; w0_text := w0_text t |}
  | key_f =>
      {| lambda_text := lambda_text t; focalLength_text := text;
         s_text := s_text t; w0_text := w0_text t |}
  | key_s =>
      {| lambda_text := lambda_text t; focalLength_text := focalLength_text t;
         s_text := text; w0_text := w0_text t |}
  | key_w0 =>
      {| lambda_text := lambda_text t; focalLength_text := focalLength_text t;
         s_text := s_text t; w0_text := text |}
  end.

(** The document: the form, the page, the input elements on which
    [updateVisualization] listens for [input] events, and whether a cycle
    is still running (one that did not end within the fuel). *)
Record Document : Type := {
  fields : Fields;
  shown : Page float;
  listening : key -> bool;
  busy : bool
}.

(** One call of [updateVisualization] on the document. *)
Definition cycle (fuel : nat) (d : Document) : Document :=
  let run := updateVisualization fuel (read (fields d)) (shown d) in
  {| fields := fields d; shown := fst run; listening := listening d;
     busy := negb (snd run) |}.

(** Line 277: [inputs[key].addEventListener("input", updateVisualization)]. *)
Definition addEventListener (d : Document) (k : key) : Document :=
  {| fields := fields d; shown := shown d;
     listening := fun k' => same_key k k' || listening d k';
     busy := busy d |}.

(** Lines 1 and 275 to 281: the handler of [DOMContentLoaded] attaches
    the listeners and calls [updateVisualization] once. *)
Definition DOMContentLoaded (fuel : nat) (d : Document) : Document :=
  cycle fuel (fold_left addEventListener keys d).

(** An edit of a field: the [value] of the element becomes [text] and
    an [input] event is dispatched to it.  While a cycle is running the
    page does not react. *)
Definition input (fuel : nat) (k : key) (text : string) (d : Document) : Document :=
  if busy d then d
  else
    let d' := {| fields := type_in k text (fields d); shown := shown d;
                 listening := listening d; busy := false |} in
    if listening d k then cycle fuel d' else d'.

(** The page is loaded, and then the fields are edited one after the
    other. *)
Definition session (fuel : nat) (edits : list (key * string)) (d : Document) : Document :=
  fold_left (fun d e => input fuel (fst e) (snd e) d) edits (DOMContentLoaded fuel d).

(** A text that [parseFloat] does not read as a number whatever follows
    its first character: the empty text, or one whose first character
    cannot open a number. *)
Definition unreadable (text : string) : bool :=
  match text with
  | String c _ => negb (Parse.opens c)
  | EmptyString => true
  end.

End Form.

(* ================================================================== *)
(** ** What a run of context operations paints *)

Module Canvas.
Section Canvas.

Context {num : Type} `{Number num}.

(** The properties of the 2D context that the script assigns. *)
Record Style : Type := {
  stroke_style : string;
  fill_style : string;
  line_width : num;
  text_font : string;
  text_align : string
}.

Definition assign (st : Style) (c : cmd num) : Style :=
  match c with
  | strokeStyle v =>
      {| stroke_style := v; fill_style := fill_style st; line_width := line_width st;
         text_font := text_font st; text_align := text_align st |}
  | fillStyle v =>
      {| stroke_style := stroke_style st; fill_style := v; line_width := line_width st;
         text_font := text_font st; text_align := text_align st |}
  | lineWidth v =>
      {| stroke_style := stroke_style st; fill_style := fill_style st; line_width := v;
         text_font := text_font st; text_align := text_align st |}
  | font v =>
      {| stroke_style := stroke_style st; fill_style := fill_style st;
         line_width := line_width st; text_font := v; text_align := text_align st |}
  | textAlign v =>
      {| stroke_style := stroke_style st; fill_style := fill_style st;
         line_width := line_width st; text_font := text_font st; text_align := v |}
  | _ => st
  end.

(** An operation that puts paint on the bitmap, with the properties it
    is painted with. *)
Inductive paint : Type :=
| stroked (colour : string) (width : num)
| filled (colour : string)
| written (text : string) (colour typeface alignment : string).

Definition paints (st : Style) (c : cmd num) : list paint :=
  match c with
  | stroke => [stroked (stroke_style st) (line_width st)]
  | fill => [filled (fill_style st)]
  | fillText text _ _ => [written text (fill_style st) (text_font st) (text_align st)]
  | _ => []
  end.

(** The paint of a run of operations that starts in state [st], and the
    state the run leaves. *)
Fixpoint painting (st : Style) (cs : list (cmd num)) : list paint :=
  match cs with
  | [] => []
  | c :: cs' => paints st c ++ painting (assign st c) cs'
  end.

Definition state_after (st : Style) (cs : list (cmd num)) : Style :=
  fold_left assign cs st.

(** A text drawn somewhere on the canvas. *)
Definition labelled (cs : list (cmd num)) (text : string) : Prop :=
  exists x y, In (fillText text x y) cs.

End Canvas.

Arguments Style : clear implicits.
Arguments paint : clear implicits.

End Canvas.

(** *** More concrete forms and inputs *)

Module Example.

Local Open Scope float_scope.

(** The helium-neon beam as the texts of the four fields. *)
Definition helium_neon_form : Form.Fields :=
  {| Form.lambda_text := "632.8"; Form.focalLength_text := "100";
     Form.s_text := "150"; Form.w0_text := "0.5" |}.

(** A document that was not loaded yet: the helium-neon form, the blank
    page, no listener. *)
Definition unloaded : Form.Document :=
  {| Form.fields := helium_neon_form; Form.shown := Scenario.page;
     Form.listening := fun _ => false; Form.busy := false |}.

(** The helium-neon beam with its waist in the front focal plane. *)
Definition at_front_focus : Inputs float :=
  {| lambda_value := Float64.literal 632.8; f_value := 100;
     s_value := 100; w0_value := 0.5 |}.

(** The state of a 2D context that nothing was assigned to. *)
Definition fresh_context : Canvas.Style float :=
  {| Canvas.stroke_style := "#000000"; Canvas.fill_style := "#000000";
     Canvas.line_width := 1; Canvas.text_font := "10px sans-serif";
     Canvas.text_align := "start" |}.

End Example.

(* ================================================================== *)
(** * Properties *)

Unset Implicit Arguments.


(** ** Facts about binary64 arithmetic *)

Section Binary64.

Local Open Scope float_scope.

Lemma literal_0 : Float64.literal 0 = zero.
Proof. reflexivity. Qed.

Lemma is_nan_spec (x : float) : is_nan x = true <-> Prim2SF x = S754_nan.
Proof.
  unfold is_nan. rewrite eqb_spec. unfold SFeqb.
  destruct (Prim2SF x) as [ [] | [] | | [] m e ]; simpl;
    rewrite ?Z.compare_refl, ?Pos.compare_cont_refl; simpl; split; congruence.
Qed.

Lemma ltb_zero_leb (x : float) : (zero <? x) = true -> (x <=? zero) = false.
Proof.
  rewrite ltb_spec, leb_spec. unfold SFltb, SFleb.
  change (Prim2SF zero) with (S754_zero false).
  destruct (Prim2SF x) as [ [] | [] | | [] m e ]; simpl; congruence.
Qed.

Lemma leb_zero_ltb (x : float) :
  is_nan x = false -> (x <=? zero) = false -> (zero <? x) = true.
Proof.
  intros Hn. assert (Hx : Prim2SF x <> S754_nan).
  { intros E. apply is_nan_spec in E. congruence. }
  revert Hx. rewrite ltb_spec, leb_spec. unfold SFltb, SFleb.
  change (Prim2SF zero) with (S754_zero false).
  destruct (Prim2SF x) as [ [] | [] | | [] m e ]; simpl; congruence.
Qed.

Lemma shr_1_nonneg (mrs : shr_record) : (0 <= shr_m mrs)%Z -> (0 <= shr_m (shr_1 mrs))%Z.
Proof.
  destruct mrs as [m r s0]; simpl. destruct m as [ | [p | p | ] | p ]; simpl; lia.
Qed.

Lemma iter_shr_1_nonneg (p : positive) :
  forall mrs, (0 <= shr_m mrs)%Z -> (0 <= shr_m (iter_pos shr_1 p mrs))%Z.
Proof.
  induction p as [p IH | p IH | ]; intros mrs Hm; simpl.
  - apply IH, IH, shr_1_nonneg, Hm.
  - apply IH, IH, Hm.
  - apply shr_1_nonneg, Hm.
Qed.

Lemma shr_fexp_nonneg (m e : Z) (l : location) :
  (0 <= m)%Z -> (0 <= shr_m (fst (shr_fexp prec emax m e l)))%Z.
Proof.
  intros Hm. unfold shr_fexp, shr.
  assert (H0 : (0 <= shr_m (shr_record_of_loc m l))%Z).
  { destruct l as [ | [ | | ] ]; simpl; exact Hm. }
  destruct (fexp prec emax (Zdigits2 m + e) - e)%Z; simpl; auto.
  apply iter_shr_1_nonneg, H0.
Qed.

Lemma round_nearest_even_nonneg (m : Z) (l : location) :
  (0 <= m)%Z -> (0 <= round_nearest_even m l)%Z.
Proof.
  intros Hm. destruct l as [ | [ | | ] ]; simpl; try lia.
  destruct (Z.even m); lia.
Qed.

(** Rounding keeps the sign and never makes a NaN. *)
Lemma binary_round_aux_sign (sx : bool) (mx ex : Z) (lx : location) :
  (0 <= mx)%Z -> signed_as sx (binary_round_aux prec emax sx mx ex lx).
Proof.
  intros Hm. unfold binary_round_aux.
  pose proof (shr_fexp_nonneg _ ex lx Hm) as H1.
  destruct (shr_fexp prec emax mx ex lx) as [mrs' e']. simpl in H1.
  pose proof (round_nearest_even_nonneg _ (loc_of_shr_record mrs') H1) as H2.
  pose proof (shr_fexp_nonneg _ e' loc_Exact H2) as H3.
  destruct (shr_fexp prec emax _ e' loc_Exact) as [mrs'' e'']. simpl in H3.
  destruct (shr_m mrs'') as [ | q | q ]; unfold signed_as; try reflexivity; try lia.
  destruct (e'' <=? emax - prec)%Z; reflexivity.
Qed.

Lemma mul_nan_l (x c : float) : is_nan x = true -> is_nan (x * c) = true.
Proof.
  rewrite !is_nan_spec, mul_spec. intros ->. reflexivity.
Qed.

Lemma opp_nan (x : float) : is_nan x = true -> is_nan (- x) = true.
Proof.
  rewrite !is_nan_spec, opp_spec. intros ->. reflexivity.
Qed.

(** A number that is not positive stays so when it is multiplied by a
    positive finite constant. *)
Lemma mul_nonpositive (x c : float) (mc : positive) (ec : Z) :
  Prim2SF c = S754_finite false mc ec ->
  (x <=? zero) = true -> (x * c <=? zero) = true.
Proof.
  intros Hc. rewrite !leb_spec, mul_spec, Hc. unfold SFleb, SF64mul.
  change (Prim2SF zero) with (S754_zero false).
  destruct (Prim2SF x) as [ [] | [] | | [] m e ]; simpl; try congruence.
  pose proof (binary_round_aux_sign true (Zpos (m * mc)) (e + ec) loc_Exact
                ltac:(lia)) as Hs.
  destruct (binary_round_aux prec emax true (Zpos (m * mc)) (e + ec) loc_Exact)
    as [ s0 | s0 | | s0 m' e' ]; simpl in Hs; subst; simpl; try reflexivity.
  contradiction.
Qed.

(** The guard of lines 33 and 34 rejects exactly the inputs that are not
    valid. *)
Lemma rejected_valid (i : BeamInput float) :
  rejected i = negb (Valid.double i).
Proof.
  unfold rejected, Valid.double. cbn [existsb isNaN nle lit Float64.number].
  rewrite literal_0.
  destruct (is_nan (lambda i)) eqn:Hl; [reflexivity | ].
  destruct (is_nan (f i)) eqn:Hf; [reflexivity | ].
  destruct (is_nan (s i)) eqn:Hs; [reflexivity | ].
  destruct (is_nan (w0 i)) eqn:Hw; [reflexivity | ].
  cbn [orb negb andb].
  destruct (w0 i <=? zero) eqn:Ew;
    [ destruct (zero <? w0 i) eqn:L; [ apply ltb_zero_leb in L; congruence | ];
      rewrite !andb_false_r; reflexivity
    | rewrite (leb_zero_ltb _ Hw Ew) ].
  destruct (lambda i <=? zero) eqn:El;
    [ destruct (zero <? lambda i) eqn:L; [ apply ltb_zero_leb in L; congruence | ];
      reflexivity
    | rewrite (leb_zero_ltb _ Hl El) ].
  destruct (f i <=? zero) eqn:Ef;
    [ destruct (zero <? f i) eqn:L; [ apply ltb_zero_leb in L; congruence | ];
      reflexivity
    | rewrite (leb_zero_ltb _ Hf Ef) ].
  reflexivity.
Qed.

End Binary64.

(* ================================================================== *)
(** ** The calculator on doubles *)

Section Calculator.

Local Open Scope float_scope.

Lemma result_formulas {num : Type} `{Number num} (i : BeamInput num) :
  Spec.result i = formulas i.
Proof. reflexivity. Qed.

Lemma calculate_accepted (i : BeamInput float) :
  Valid.double i = true -> calculate i = Some (formulas i).
Proof.
  intros Hv. unfold calculate. rewrite rejected_valid, Hv. reflexivity.
Qed.

(** C1: on every valid input (no NaN; wavelength, focal length and waist
    strictly positive) the calculator returns a result, and its seven
    fields are the seven formulas of the specification, each applied to the
    values computed before it. *)
Theorem calculate_valid (i : BeamInput float) :
  Valid.double i = true -> calculate i = Some (Spec.result i).
Proof.
  intros Hv. rewrite result_formulas. apply calculate_accepted, Hv.
Qed.

Lemma calculate_valid_witness :
  Valid.double (convert Scenario.helium_neon) = true
  /\ calculate (convert Scenario.helium_neon)
     = Some (Spec.result (convert Scenario.helium_neon)).
Proof.
  split; [ reflexivity | apply calculate_valid; reflexivity ].
Defined.

Lemma calculate_rejected (i : BeamInput float) :
  Valid.double i = false -> calculate i = None.
Proof.
  intros Hv. unfold calculate. rewrite rejected_valid, Hv. reflexivity.
Qed.

(** What cannot be used is not valid once converted. *)
Lemma unusable_not_valid (i : Inputs float) :
  Valid.unusable i -> Valid.double (convert i) = false.
Proof.
  assert (Hnm : exists m e, Prim2SF (Float64.literal 1e-9) = S754_finite false m e)
    by (do 2 eexists; vm_compute; reflexivity).
  assert (Hmm : exists m e, Prim2SF (Float64.literal 1e-3) = S754_finite false m e)
    by (do 2 eexists; vm_compute; reflexivity).
  destruct Hnm as (m9 & e9 & H9), Hmm as (m3 & e3 & H3).
  unfold Valid.double, convert; cbn [lambda f s w0 nmul nneg lit Float64.number].
  intros [x Hin Hx | x Hin Hx | x Hin Hx];
    cbn [In convert lambda f s w0 nmul nneg lit Float64.number] in Hin;
    repeat destruct Hin as [<- | Hin]; try contradiction.
  - rewrite (mul_nan_l _ _ Hx). reflexivity.
  - rewrite (mul_nan_l _ _ Hx). cbn. now rewrite andb_false_r.
  - rewrite (mul_nan_l _ _ (opp_nan _ Hx)). cbn. now rewrite !andb_false_r.
  - rewrite (mul_nan_l _ _ Hx). cbn. now rewrite !andb_false_r.
  - pose proof (mul_nonpositive _ _ _ _ H9 Hx) as L.
    destruct (zero <? lambda_value i * Float64.literal 1e-9) eqn:E;
      [ apply ltb_zero_leb in E; congruence | ].
    now rewrite !andb_false_r.
  - pose proof (mul_nonpositive _ _ _ _ H3 Hx) as L.
    destruct (zero <? f_value i * Float64.literal 1e-3) eqn:E;
      [ apply ltb_zero_leb in E; congruence | ].
    now rewrite !andb_false_r.
  - pose proof (mul_nonpositive _ _ _ _ H3 Hx) as L.
    destruct (zero <? w0_value i * Float64.literal 1e-3) eqn:E;
      [ apply ltb_zero_leb in E; congruence | ].
    now rewrite !andb_false_r.
  - destruct (zero <? lambda_value i * Float64.literal 1e-9) eqn:E;
      [ apply ltb_zero_leb in E; congruence | ].
    now rewrite !andb_false_r.
  - destruct (zero <? f_value i * Float64.literal 1e-3) eqn:E;
      [ apply ltb_zero_leb in E; congruence | ].
    now rewrite !andb_false_r.
  - destruct (zero <? w0_value i * Float64.literal 1e-3) eqn:E;
      [ apply ltb_zero_leb in E; congruence | ].
    now rewrite !andb_false_r.
Qed.

(** C2: when one of the four parsed values is NaN, or the wavelength, the
    focal length or the waist is not positive, the cycle stops at the
    guard: the calculator gives no result, and the page (the six display
    fields and the drawing surface) is the page from before the cycle. *)
Theorem unusable_input_aborts (fuel : nat) (i : Inputs float) (page : Page float) :
  Valid.unusable i ->
  calculate (convert i) = None
  /\ updateVisualization fuel i page = (page, true).
Proof.
  intros Hu. apply unusable_not_valid, calculate_rejected in Hu.
  split; [ exact Hu | ]. unfold updateVisualization. rewrite Hu. reflexivity.
Qed.

Lemma unusable_input_aborts_witness :
  Valid.unusable Scenario.zero_wavelength
  /\ calculate (convert Scenario.zero_wavelength) = None
  /\ updateVisualization 1000 Scenario.zero_wavelength Scenario.page
     = (Scenario.page, true).
Proof.
  assert (Hu : Valid.unusable Scenario.zero_wavelength).
  { apply Valid.not_positive with (x := zero); [ simpl; auto | reflexivity ]. }
  split; [ exact Hu | ].
  exact (unusable_input_aborts 1000 Scenario.zero_wavelength Scenario.page Hu).
Defined.

(** An infinite wavelength passes the guard: the calculator returns a
    result and the display fields change. *)
Lemma infinite_wavelength_accepted :
  Valid.has_infinity Scenario.infinite_wavelength = true
  /\ calculate Scenario.infinite_wavelength <> None
  /\ Valid.has_infinity (convert Scenario.infinite_wavelength_entered) = true
  /\ outputs (fst (updateVisualization 1000 Scenario.infinite_wavelength_entered
                     Scenario.page))
     <> outputs Scenario.page.
Proof.
  repeat split; try reflexivity; vm_compute; discriminate.
Qed.

Lemma infinity_cases (x : float) :
  is_infinity x = true -> x = infinity \/ x = neg_infinity.
Proof.
  unfold is_infinity. rewrite eqb_spec, abs_spec.
  change (Prim2SF infinity) with (S754_infinity false).
  intros Hx.
  assert (Hs : exists sx, Prim2SF x = S754_infinity sx).
  { destruct (Prim2SF x) as [ sx | sx | | sx m e ]; try discriminate Hx.
    now exists sx. }
  destruct Hs as [[ | ] Hs]; [ right | left ]; apply Prim2SF_inj; rewrite Hs;
    reflexivity.
Qed.

(** An infinite number that is positive is plus infinity. *)
Lemma positive_infinity (x : float) :
  is_infinity x = true -> (zero <? x) = true -> x = infinity.
Proof.
  intros Hi Hp. destruct (infinity_cases x Hi) as [-> | ->];
    [ reflexivity | discriminate Hp ].
Qed.

(** C3, as the code has it: finiteness is not tested.  For an input with
    an infinite component the cycle stops at the guard exactly when the
    input has a NaN or a wavelength, focal length or waist that is not
    positive (minus infinity there); otherwise the infinite component is
    a wavelength, focal length or waist of plus infinity or an object
    distance of either infinity, the calculator returns the result of the
    formulas and the display fields are assigned from it. *)
Theorem infinite_component_guard (fuel : nat) (e : Inputs float) (page : Page float) :
  Valid.has_infinity (convert e) = true ->
  (Valid.double (convert e) = false ->
   calculate (convert e) = None
   /\ updateVisualization fuel e page = (page, true))
  /\ (Valid.double (convert e) = true ->
      (lambda (convert e) = infinity \/ f (convert e) = infinity
       \/ w0 (convert e) = infinity
       \/ s (convert e) = infinity \/ s (convert e) = neg_infinity)
      /\ calculate (convert e) = Some (formulas (convert e))
      /\ outputs (fst (updateVisualization fuel e page))
         = display (formulas (convert e))).
Proof.
  intros Hinf. split; intros Hv.
  - apply calculate_rejected in Hv. split; [ exact Hv | ].
    unfold updateVisualization. rewrite Hv. reflexivity.
  - split.
    + unfold Valid.double in Hv. unfold Valid.has_infinity in Hinf.
      rewrite !andb_true_iff in Hv. rewrite !orb_true_iff in Hinf.
      destruct Hv as [[[_ Hpl] Hpf] Hpw].
      destruct Hinf as [[[Hi | Hi] | Hi] | Hi].
      * left. now apply positive_infinity.
      * right; left. now apply positive_infinity.
      * right; right; right. now apply infinity_cases.
      * right; right; left. now apply positive_infinity.
    + apply calculate_accepted in Hv.
      split; [ exact Hv | ]. unfold updateVisualization. rewrite Hv. reflexivity.
Qed.

Lemma infinite_component_guard_witness :
  Valid.has_infinity (convert Scenario.infinite_wavelength_entered) = true
  /\ calculate (convert Scenario.infinite_wavelength_entered)
     = Some (formulas (convert Scenario.infinite_wavelength_entered)).
Proof.
  split; [ reflexivity | ].
  apply (proj2 (infinite_component_guard 1000 Scenario.infinite_wavelength_entered
                  Scenario.page eq_refl)); reflexivity.
Defined.

End Calculator.

(* ================================================================== *)
(** ** The formulas in exact arithmetic *)

Section ExactArithmetic.

Local Open Scope R_scope.















End ExactArithmetic.

Section MaxCases.

Local Open Scope R_scope.



End MaxCases.


Section ExactLayout.

Local Open Scope R_scope.




End ExactLayout.

(* ================================================================== *)
(** ** What rounding, overflow and underflow do to the formulas *)

Section Rounding.

Local Open Scope float_scope.




End Rounding.

(* ================================================================== *)
(** ** The order of doubles *)

Section RankOrder.

Local Open Scope Z_scope.

Lemma digits2_size (p : positive) : digits2_pos p = Pos.size p.
Proof. induction p; simpl; congruence. Qed.

Lemma size_bound (p : positive) : Zpos p < 2 ^ Zpos (Pos.size p).
Proof.
  pose proof (Pos.size_gt p) as H.
  apply Pos2Z.pos_lt_pos in H. rewrite Pos2Z.inj_pow in H. exact H.
Qed.

Lemma size_bound_low (p : positive) : 2 ^ (Zpos (Pos.size p) - 1) <= Zpos p.
Proof.
  pose proof (Pos.size_le p) as H.
  apply Pos2Z.pos_le_pos in H. rewrite Pos2Z.inj_pow in H.
  change (Zpos p~0) with (2 * Zpos p) in H.
  replace (Zpos (Pos.size p)) with (Z.succ (Zpos (Pos.size p) - 1)) in H by lia.
  rewrite Z.pow_succ_r in H by lia. lia.
Qed.

Lemma valid_finite_bounds (s : bool) (m : positive) (e : Z) :
  valid_binary (S754_finite s m e) = true ->
  -1074 <= e <= 971 /\ Zpos m < 9007199254740992
  /\ e = Z.max (Zpos (digits2_pos m) + e - 53) (-1074).
Proof.
  unfold SpecFloat.valid_binary, bounded, canonical_mantissa, fexp.
  rewrite andb_true_iff, Z.eqb_eq, Z.leb_le.
  change (SpecFloat.emin prec emax) with (-1074).
  change prec with 53. change (emax - 53) with 971.
  intros [Hc He].
  pose proof (size_bound m) as Hs. rewrite <- digits2_size in Hs.
  assert (Hd : Zpos (digits2_pos m) <= 53) by lia.
  assert (Hp : 2 ^ Zpos (digits2_pos m) <= 2 ^ 53)
    by (apply Z.pow_le_mono_r; lia).
  change (2 ^ 53) with 9007199254740992 in Hp. lia.
Qed.

Lemma compare_rank (x y : spec_float) :
  valid_binary x = true -> valid_binary y = true ->
  x <> S754_nan -> y <> S754_nan ->
  SFcompare x y = Some (rank x ?= rank y).
Proof.
  intros Vx Vy Nx Ny.
  destruct x as [ sx | sx | | sx mx ex ], y as [ sy | sy | | sy my ey ];
    try congruence;
    try (apply valid_finite_bounds in Vx; destruct Vx as (Hex & Hmx & _));
    try (apply valid_finite_bounds in Vy; destruct Vy as (Hey & Hmy & _));
    try destruct sx; try destruct sy; cbn [SFcompare rank]; unfold magnitude_rank;
    f_equal; symmetry;
    try (apply Z.compare_eq_iff; lia);
    try (apply Z.compare_lt_iff; lia);
    try (apply Z.compare_gt_iff; lia).
  all: change (Pos.compare_cont Eq) with Pos.compare.
  all: destruct (Z.compare_spec ex ey) as [He | He | He];
       try destruct (Pos.compare_spec mx my) as [Hm | Hm | Hm]; cbn [CompOpp];
       try (apply Z.compare_eq_iff; subst; lia);
       try (apply Z.compare_lt_iff; lia);
       try (apply Z.compare_gt_iff; lia).
Qed.

End RankOrder.

Section DoubleOrder.

Local Open Scope float_scope.

Lemma not_nan_spec (a : float) : is_nan a = false -> Prim2SF a <> S754_nan.
Proof. intros Hn E. apply is_nan_spec in E. congruence. Qed.

Lemma nan_of_spec (a : float) : Prim2SF a <> S754_nan -> is_nan a = false.
Proof.
  intros Hn. destruct (is_nan a) eqn:E; [ | reflexivity ].
  apply is_nan_spec in E. contradiction.
Qed.

Lemma ltb_rank (a b : float) :
  is_nan a = false -> is_nan b = false -> (a <? b) = (frank a <? frank b)%Z.
Proof.
  intros Ha Hb. rewrite ltb_spec. unfold SFltb, frank.
  rewrite compare_rank by auto using Prim2SF_valid, not_nan_spec.
  unfold Z.ltb. destruct (rank (Prim2SF a) ?= rank (Prim2SF b))%Z; reflexivity.
Qed.

Lemma leb_rank (a b : float) :
  is_nan a = false -> is_nan b = false -> (a <=? b) = (frank a <=? frank b)%Z.
Proof.
  intros Ha Hb. rewrite leb_spec. unfold SFleb, frank.
  rewrite compare_rank by auto using Prim2SF_valid, not_nan_spec.
  unfold Z.leb. destruct (rank (Prim2SF a) ?= rank (Prim2SF b))%Z; reflexivity.
Qed.

Lemma frank_zero : frank zero = 0%Z.
Proof. reflexivity. Qed.

Lemma opp_rank (a : float) :
  is_nan (- a) = is_nan a /\ frank (- a) = (- frank a)%Z.
Proof.
  split.
  - destruct (is_nan a) eqn:E.
    + now apply opp_nan.
    + apply nan_of_spec. rewrite opp_spec. apply not_nan_spec in E.
      destruct (Prim2SF a); simpl; congruence.
  - unfold frank. rewrite opp_spec.
    destruct (Prim2SF a) as [ [] | [] | | [] m e ]; simpl; lia.
Qed.

Lemma abs_rank (a : float) :
  is_nan (abs a) = is_nan a /\ frank (abs a) = Z.abs (frank a).
Proof.
  split.
  - destruct (is_nan a) eqn:E.
    + apply is_nan_spec. rewrite abs_spec. apply is_nan_spec in E. now rewrite E.
    + apply nan_of_spec. rewrite abs_spec. apply not_nan_spec in E.
      destruct (Prim2SF a); simpl; congruence.
  - unfold frank. rewrite abs_spec.
    pose proof (Prim2SF_valid a) as V.
    destruct (Prim2SF a) as [ [] | [] | | [] m e ]; simpl; try lia;
      apply valid_finite_bounds in V; unfold magnitude_rank; lia.
Qed.

Lemma rank_injective (a b : float) :
  is_nan a = false -> is_nan b = false ->
  frank a = frank b -> frank a <> 0%Z -> a = b.
Proof.
  intros Ha Hb E Hnz. apply Prim2SF_inj. unfold frank in *.
  apply not_nan_spec in Ha, Hb.
  pose proof (Prim2SF_valid a) as Va. pose proof (Prim2SF_valid b) as Vb.
  destruct (Prim2SF a) as [ sa | sa | | sa ma ea ],
           (Prim2SF b) as [ sb | sb | | sb mb eb ];
    try congruence;
    try (apply valid_finite_bounds in Va; destruct Va as (Hea & Hma & _));
    try (apply valid_finite_bounds in Vb; destruct Vb as (Heb & Hmb & _));
    try destruct sa; try destruct sb; cbn [rank] in *; unfold magnitude_rank in *;
    try lia; try reflexivity.
  all: assert (ea = eb) by lia; subst eb;
       assert (Zpos ma = Zpos mb) by lia; congruence.
Qed.

Lemma max_nan (a b : float) :
  is_nan a = true \/ is_nan b = true -> Float64.max a b = nan.
Proof.
  unfold Float64.max. intros [-> | ->]; [ reflexivity | ].
  rewrite orb_true_r. reflexivity.
Qed.

Lemma max_rank (a b : float) :
  is_nan a = false -> is_nan b = false ->
  is_nan (Float64.max a b) = false
  /\ frank (Float64.max a b) = Z.max (frank a) (frank b).
Proof.
  intros Ha Hb. unfold Float64.max. rewrite Ha, Hb. cbn [orb].
  rewrite !ltb_rank by assumption.
  destruct (Z.ltb_spec (frank a) (frank b));
    [ split; [ assumption | lia ] | ].
  destruct (Z.ltb_spec (frank b) (frank a));
    [ split; [ assumption | lia ] | ].
  destruct (get_sign a); split; try assumption; lia.
Qed.

End DoubleOrder.

(* ================================================================== *)
(** ** Rounding a sum of positive doubles *)

Section Shifts.

Local Open Scope Z_scope.

Lemma fexp_eq (x : Z) : fexp prec emax x = Z.max (x - 53) (-1074).
Proof. reflexivity. Qed.

Lemma shr_1_div2 (mrs : shr_record) :
  0 <= shr_m mrs -> shr_m (shr_1 mrs) = shr_m mrs / 2.
Proof.
  destruct mrs as [m r s0]; cbn [shr_m shr_1]. intros Hm.
  destruct m as [ | [p | p | ] | p ]; cbn [shr_m]; try lia; try reflexivity.
  - apply Z.div_unique with (r := 1); lia.
  - apply Z.div_unique with (r := 0); lia.
Qed.

Lemma iter_shr_1_div (p : positive) :
  forall mrs, 0 <= shr_m mrs ->
  shr_m (iter_pos shr_1 p mrs) = shr_m mrs / 2 ^ Zpos p.
Proof.
  induction p as [p IH | p IH | ]; intros mrs Hm; cbn [iter_pos].
  - rewrite IH by (apply iter_shr_1_nonneg, shr_1_nonneg, Hm).
    rewrite IH by (apply shr_1_nonneg, Hm).
    rewrite shr_1_div2 by exact Hm.
    rewrite !Z.div_div by lia.
    replace (Zpos p~1) with (1 + Zpos p + Zpos p) by lia.
    rewrite !Z.pow_add_r by lia. f_equal. change (2 ^ 1) with 2. ring.
  - rewrite IH by (apply iter_shr_1_nonneg, Hm).
    rewrite IH by exact Hm.
    rewrite !Z.div_div by lia.
    replace (Zpos p~0) with (Zpos p + Zpos p) by lia.
    rewrite !Z.pow_add_r by lia. f_equal.
  - now rewrite shr_1_div2.
Qed.

(** Shifting right by [n >= 0] places divides by [2^n]. *)
Lemma shr_value (m e n : Z) (l : location) :
  0 <= m -> 0 <= n ->
  shr_m (fst (shr (shr_record_of_loc m l) e n)) = m / 2 ^ n
  /\ snd (shr (shr_record_of_loc m l) e n) = e + n.
Proof.
  intros Hm Hn.
  assert (H0 : shr_m (shr_record_of_loc m l) = m)
    by (destruct l as [ | [ | | ] ]; reflexivity).
  unfold shr. destruct n as [ | p | p ]; cbn [fst snd]; try lia.
  - rewrite H0, Z.div_1_r. split; lia.
  - rewrite iter_shr_1_div by lia. rewrite H0. split; reflexivity.
Qed.

Lemma div_pow_lower (a k n : Z) :
  0 <= n <= k -> 2 ^ k <= a -> 2 ^ (k - n) <= a / 2 ^ n.
Proof.
  intros Hn Ha. apply Z.div_le_lower_bound; [ apply Z.pow_pos_nonneg; lia | ].
  rewrite <- Z.pow_add_r by lia. replace (n + (k - n)) with k by lia. exact Ha.
Qed.

Lemma digits_bounds (p : positive) :
  2 ^ (Zpos (digits2_pos p) - 1) <= Zpos p < 2 ^ Zpos (digits2_pos p).
Proof.
  rewrite digits2_size. split; [ apply size_bound_low | apply size_bound ].
Qed.

(** After the shift to the exponent of its format a positive integer is
    still positive. *)
Lemma shr_fexp_positive (p : positive) (e : Z) (l : location) :
  -1074 <= e ->
  let r := shr_fexp prec emax (Zpos p) e l in
  0 < shr_m (fst r)
  /\ snd r = Z.max (Zpos (digits2_pos p) + e - 53) e
  /\ shr_m (fst r) = Zpos p / 2 ^ (snd r - e).
Proof.
  intros He. cbv zeta. unfold shr_fexp. rewrite fexp_eq. cbn [Zdigits2].
  set (d := Zpos (digits2_pos p)).
  pose proof (digits_bounds p) as [Hlo Hhi]. fold d in Hlo, Hhi.
  destruct (Z.le_gt_cases (d + e - 53) e) as [Hsmall | Hbig].
  - (* no shift *)
    assert (Hn : Z.max (d + e - 53) (-1074) - e <= 0) by lia.
    unfold shr. destruct (Z.max (d + e - 53) (-1074) - e) as [ | q | q ] eqn:En;
      try lia; cbn [fst snd].
    + assert (H0 : shr_m (shr_record_of_loc (Zpos p) l) = Zpos p)
        by (destruct l as [ | [ | | ] ]; reflexivity).
      rewrite H0. replace (Z.max (d + e - 53) e) with e by lia.
      rewrite Z.sub_diag, Z.div_1_r. lia.
    + assert (H0 : shr_m (shr_record_of_loc (Zpos p) l) = Zpos p)
        by (destruct l as [ | [ | | ] ]; reflexivity).
      rewrite H0. replace (Z.max (d + e - 53) e) with e by lia.
      rewrite Z.sub_diag, Z.div_1_r. lia.
  - replace (Z.max (d + e - 53) (-1074)) with (d + e - 53) by lia.
    replace (d + e - 53 - e) with (d - 53) by lia.
    destruct (shr_value (Zpos p) e (d - 53) l ltac:(lia) ltac:(lia)) as [Hm Hs].
    rewrite Hm, Hs. replace (Z.max (d + e - 53) e) with (e + (d - 53)) by lia.
    replace (e + (d - 53) - e) with (d - 53) by lia.
    split; [ | split; reflexivity ].
    pose proof (div_pow_lower (Zpos p) (d - 1) (d - 53) ltac:(lia) Hlo) as Hd.
    replace (d - 1 - (d - 53)) with 52 in Hd by lia.
    assert (0 < 2 ^ 52) by (apply Z.pow_pos_nonneg; lia). lia.
Qed.

Lemma round_nearest_even_bounds (m : Z) (l : location) :
  m <= round_nearest_even m l <= m + 1.
Proof.
  destruct l as [ | [ | | ] ]; cbn [round_nearest_even]; try lia.
  destruct (Z.even m); lia.
Qed.

(** The rounded value of the positive integer [M * 2^ez] is not below a
    number [mx * 2^ex] of the format that [M * 2^ez] is not below. *)
Lemma binary_round_aux_lower (M : positive) (ez : Z) (mx : positive) (ex : Z) :
  -1074 <= ez ->
  ex <= Z.max (Zpos (digits2_pos M) + ez - 53) ez ->
  (Z.max (Zpos (digits2_pos M) + ez - 53) ez = ex ->
   Zpos mx <= Zpos M / 2 ^ (ex - ez)) ->
  Zpos mx < 9007199254740992 ->
  match binary_round_aux prec emax false (Zpos M) ez loc_Exact with
  | S754_finite false m e => magnitude_rank mx ex <= magnitude_rank m e
  | S754_infinity false => True
  | _ => False
  end.
Proof.
  intros Hez Hex Hsame Hmx. unfold binary_round_aux.
  destruct (shr_fexp_positive M ez loc_Exact Hez) as (H1pos & H1e & H1m).
  destruct (shr_fexp prec emax (Zpos M) ez loc_Exact) as [mrs' e'].
  cbn [fst snd] in H1pos, H1e, H1m.
  pose proof (round_nearest_even_bounds (shr_m mrs') (loc_of_shr_record mrs')) as Hr.
  destruct (round_nearest_even (shr_m mrs') (loc_of_shr_record mrs')) as [ | p2 | p2 ];
    try lia.
  destruct (shr_fexp_positive p2 e' loc_Exact ltac:(lia)) as (H2pos & H2e & H2m).
  destruct (shr_fexp prec emax (Zpos p2) e' loc_Exact) as [mrs'' e''].
  cbn [fst snd] in H2pos, H2e, H2m.
  destruct (shr_m mrs'') as [ | m | m ]; try lia.
  destruct (e'' <=? emax - prec); [ | exact I ].
  unfold magnitude_rank.
  destruct (Z.eq_dec e'' ex) as [Heq | Hne].
  - assert (He' : e' = ex) by lia.
    assert (Hm1 : Zpos mx <= shr_m mrs') by (rewrite H1m, He'; apply Hsame; lia).
    assert (Hm : Zpos m = Zpos p2).
    { rewrite H2m. replace (e'' - e') with 0 by lia. now rewrite Z.div_1_r. }
    subst e''. lia.
  - assert (ex < e'') by lia. lia.
Qed.

Lemma iter_xO_value (d p : positive) : Zpos (Pos.iter xO p d) = Zpos p * 2 ^ Zpos d.
Proof.
  induction d as [ | d IH ] using Pos.peano_ind.
  - cbn [Pos.iter]. lia.
  - rewrite Pos.iter_succ, Pos2Z.inj_xO, IH, Pos2Z.inj_succ, Z.pow_succ_r by lia.
    ring.
Qed.

Lemma shl_align_value (mx : positive) (ex ez : Z) :
  ez <= ex ->
  Zpos (fst (shl_align mx ex ez)) = Zpos mx * 2 ^ (ex - ez).
Proof.
  intros Hle. unfold shl_align.
  destruct (ez - ex) as [ | d | d ] eqn:E; cbn [fst]; try lia.
  - replace (ex - ez) with 0 by lia. lia.
  - rewrite iter_xO_value. f_equal. f_equal. lia.
Qed.

Lemma SFadd_positive_lower (mx my : positive) (ex ey : Z) :
  valid_binary (S754_finite false mx ex) = true ->
  valid_binary (S754_finite false my ey) = true ->
  match SFadd prec emax (S754_finite false mx ex) (S754_finite false my ey) with
  | S754_finite false m e => magnitude_rank mx ex <= magnitude_rank m e
  | S754_infinity false => True
  | _ => False
  end.
Proof.
  intros Vx Vy.
  apply valid_finite_bounds in Vx, Vy.
  destruct Vx as (Hex & Hmx & Hcx), Vy as (Hey & Hmy & Hcy).
  cbn [SFadd cond_Zopp].
  set (ez := Z.min ex ey).
  pose proof (shl_align_value mx ex ez ltac:(lia)) as Ha.
  pose proof (shl_align_value my ey ez ltac:(lia)) as Hb.
  set (a := fst (shl_align mx ex ez)) in *.
  set (b := fst (shl_align my ey ez)) in *.
  change (Zpos a + Zpos b) with (Zpos (a + b)).
  cbn [binary_normalize]. unfold binary_round.
  pose proof (digits_bounds (a + b)) as [HMlo HMhi].
  pose proof (digits_bounds mx) as [Hxlo Hxhi].
  set (dM := Zpos (digits2_pos (a + b))) in *.
  set (dx := Zpos (digits2_pos mx)) in *.
  assert (Hp : 0 < 2 ^ (ex - ez)) by (apply Z.pow_pos_nonneg; lia).
  assert (HM : Zpos mx * 2 ^ (ex - ez) <= Zpos (a + b))
    by (rewrite Pos2Z.inj_add, Ha; lia).
  assert (Hd : dx + ex - ez <= dM).
  { assert (Hlt : 2 ^ (dx - 1 + (ex - ez)) < 2 ^ dM).
    { rewrite Z.pow_add_r by lia.
      apply Z.le_lt_trans with (Zpos (a + b)); [ | exact HMhi ].
      apply Z.le_trans with (Zpos mx * 2 ^ (ex - ez)); [ | exact HM ].
      apply Z.mul_le_mono_nonneg_r; lia. }
    apply Z.pow_lt_mono_r_iff in Hlt; lia. }
  rewrite fexp_eq. fold dM.
  assert (Hnoshift : shl_align (a + b) ez (Z.max (dM + ez - 53) (-1074))
                     = ((a + b)%positive, ez)).
  { unfold shl_align.
    destruct (Z.max (dM + ez - 53) (-1074) - ez) as [ | q | q ] eqn:E;
      try reflexivity. lia. }
  rewrite Hnoshift.
  apply binary_round_aux_lower; fold dM; try lia.
  intros _. apply Z.div_le_lower_bound; lia.
Qed.

Lemma positive_rank (x : spec_float) :
  valid_binary x = true -> 0 < rank x ->
  x = S754_infinity false \/ exists m e, x = S754_finite false m e.
Proof.
  intros V Hp. destruct x as [ sx | [ | ] | | [ | ] m e ]; cbn [rank] in Hp;
    try lia; [ now left | | right; now exists m, e ].
  apply valid_finite_bounds in V. unfold magnitude_rank in Hp. lia.
Qed.

End Shifts.

Section Addition.

Local Open Scope float_scope.

(** Adding a positive number to a positive number does not give less. *)
Lemma add_ge_left (a b : float) :
  is_nan a = false -> is_nan b = false ->
  (0 < frank a)%Z -> (0 < frank b)%Z ->
  is_nan (a + b) = false /\ (frank a <= frank (a + b))%Z.
Proof.
  intros Ha Hb Hpa Hpb. unfold frank in *.
  assert (Hn : Prim2SF (a + b) <> S754_nan
               /\ (rank (Prim2SF a) <= rank (Prim2SF (a + b)))%Z);
    [ | destruct Hn; split; [ now apply nan_of_spec | assumption ] ].
  rewrite add_spec. unfold SF64add.
  pose proof (Prim2SF_valid a) as Va. pose proof (Prim2SF_valid b) as Vb.
  destruct (positive_rank _ Va Hpa) as [Ea | (ma & ea & Ea)];
    destruct (positive_rank _ Vb Hpb) as [Eb | (mb & eb & Eb)];
    rewrite Ea, Eb in *.
  - cbn. split; [ congruence | lia ].
  - cbn. split; [ congruence | lia ].
  - cbn. split; [ congruence | ].
    apply valid_finite_bounds in Va. unfold magnitude_rank. lia.
  - pose proof (SFadd_positive_lower ma mb ea eb Va Vb) as H.
    destruct (SFadd prec emax (S754_finite false ma ea) (S754_finite false mb eb))
      as [ sr | [ | ] | | [ | ] mr er ]; try contradiction.
    + split; [ congruence | ]. cbn [rank].
      apply valid_finite_bounds in Va. unfold magnitude_rank. lia.
    + split; [ congruence | exact H ].
Qed.

End Addition.

(* ================================================================== *)
(** ** The span of the drawing *)

Section DoubleSpan.

Local Open Scope float_scope.

Lemma mul_comm (a b : float) : a * b = b * a.
Proof.
  apply Prim2SF_inj. rewrite !mul_spec. unfold SF64mul.
  destruct (Prim2SF a) as [ sa | sa | | sa ma ea ],
           (Prim2SF b) as [ sb | sb | | sb mb eb ];
    cbn [SFmul]; rewrite ?(xorb_comm sa sb); try reflexivity.
  now rewrite (Pos.mul_comm ma mb), (Z.add_comm ea eb).
Qed.

Lemma max_nan_l (a b : float) : is_nan a = true -> Float64.max a b = nan.
Proof. intros Ha. apply max_nan. now left. Qed.

Lemma max_nan_r (a b : float) : is_nan b = true -> Float64.max a b = nan.
Proof. intros Hb. apply max_nan. now right. Qed.

Lemma is_nan_nan : is_nan nan = true.
Proof. reflexivity. Qed.

(** With a positive focal length, [-s] and [|s|] give the same maximum,
    in whichever order the five are folded. *)
Lemma double_widest (s s' f : float) :
  is_nan s = false -> is_nan f = false -> (zero <? f) = true ->
  Float64.max (Float64.max (Float64.max (Float64.max (- s) s') f)
                           (abs (s + f))) (abs (s' - f))
  = Float64.max (abs s)
      (Float64.max s' (Float64.max f (Float64.max (abs (s + f)) (abs (s' - f))))).
Proof.
  intros Hs Hf Hpos.
  set (A := abs (s + f)). set (B := abs (s' - f)).
  (* a maximum with a NaN among its arguments is NaN *)
  assert (Hnan : forall x, is_nan x = true -> (x = A \/ x = B \/ x = s') ->
    Float64.max (Float64.max (Float64.max (Float64.max (- s) s') f) A) B
    = Float64.max (abs s)
        (Float64.max s' (Float64.max f (Float64.max A B)))).
  { intros x Hx [-> | [-> | ->]];
      repeat progress
        rewrite ?(max_nan_r _ _ Hx), ?(max_nan_l _ _ Hx),
                ?(max_nan_l _ _ is_nan_nan), ?(max_nan_r _ _ is_nan_nan);
      reflexivity. }
  destruct (is_nan B) eqn:HB; [ apply (Hnan B HB); auto | ].
  destruct (is_nan A) eqn:HA; [ apply (Hnan A HA); auto | ].
  destruct (is_nan s') eqn:Hs'; [ apply (Hnan s' Hs'); auto | ].
  clear Hnan.
  destruct (opp_rank s) as [Hno Hro]. rewrite Hs in Hno.
  destruct (abs_rank s) as [Hna Hra]. rewrite Hs in Hna.
  rewrite ltb_rank, frank_zero in Hpos by (assumption || reflexivity).
  apply Z.ltb_lt in Hpos.
  destruct (max_rank (- s) s' Hno Hs') as [N1 R1].
  destruct (max_rank _ f N1 Hf) as [N2 R2].
  destruct (max_rank _ A N2 HA) as [N3 R3].
  destruct (max_rank _ B N3 HB) as [N4 R4].
  destruct (max_rank A B HA HB) as [N1' R1'].
  destruct (max_rank f _ Hf N1') as [N2' R2'].
  destruct (max_rank s' _ Hs' N2') as [N3' R3'].
  destruct (max_rank (abs s) _ Hna N3') as [N4' R4'].
  assert (HsA : (0 < frank s -> frank s <= frank A)%Z).
  { intros Hp. destruct (add_ge_left s f Hs Hf Hp Hpos) as [_ Hle].
    subst A. destruct (abs_rank (s + f)) as [_ ->]. lia. }
  apply rank_injective; try assumption; lia.
Qed.

(** C6: on every valid input the span along the optical axis is 2.2 times
    the largest of [|s|], [s'], [f], [|s + f|] and [|s' - f|], and the
    horizontal scale is the canvas width divided by the span. *)
Theorem span_and_scale (width height : N) (i : BeamInput float) :
  Valid.double i = true ->
  let r := formulas i in
  let g := layout width height i r in
  calculate i = Some r
  /\ totalDist g = (lit 2.2 * Spec.widest i r)%js
  /\ scaleX g = (lit (inject_Z (Z.of_N width)) / totalDist g)%js.
Proof.
  intros Hv r g. split; [ now apply calculate_accepted | ].
  split; [ | reflexivity ].
  unfold Valid.double in Hv. rewrite !andb_true_iff, !negb_true_iff in Hv.
  destruct Hv as ((((((Hl & Hf) & Hs) & Hw) & Hpl) & Hpf) & Hpw).
  subst g. unfold layout, Spec.widest. cbn [totalDist].
  cbn [nmul nadd nsub nneg Math_max Math_abs lit Float64.number].
  rewrite (double_widest (s i) (s_prime r) (f i) Hs Hf Hpf).
  apply mul_comm.
Qed.

Lemma span_and_scale_witness :
  Valid.double (convert Scenario.helium_neon) = true
  /\ totalDist (layout 800 400 (convert Scenario.helium_neon)
                  (formulas (convert Scenario.helium_neon)))
     = (lit 2.2 * Spec.widest (convert Scenario.helium_neon)
                    (formulas (convert Scenario.helium_neon)))%js.
Proof.
  split; [ reflexivity | ].
  apply (span_and_scale 800 400 (convert Scenario.helium_neon)); reflexivity.
Defined.

End DoubleSpan.

(* ================================================================== *)
(** ** Units and display *)

Section Units.

Context {num : Type} `{Number num}.


End Units.

Section HeliumNeon.

Local Open Scope float_scope.

(** The helium-neon beam shows 100.32, 0.040, 1241.15, 8.04, 0.403 and
    5.004. *)
Lemma helium_neon_display :
  outputs (fst (updateVisualization 1000 Scenario.helium_neon Scenario.page))
  = {| out_s_prime := "100.32"; out_w0_prime := "0.040";
       out_zr_in := "1241.15"; out_zr_prime := "8.04";
       out_theta_in := "0.403"; out_theta_prime := "5.004" |}.
Proof. vm_compute. reflexivity. Qed.

(** The Rayleigh range of the helium-neon beam is not 1240.6 mm to one
    decimal: it is above 1241 mm. *)
Lemma helium_neon_not_1240_6 :
  calculate (convert Scenario.helium_neon)
  = Some (formulas (convert Scenario.helium_neon))
  /\ (Float64.literal 1241
      <=? zr (formulas (convert Scenario.helium_neon)) * Float64.literal 1000)
     = true
  /\ Float64.to_fixed
       (zr (formulas (convert Scenario.helium_neon)) * Float64.literal 1000) 1
     <> "1240.6"%string.
Proof.
  split; [ reflexivity | ]. split; [ reflexivity | ].
  vm_compute. discriminate.
Qed.

(** C7, with the value the formula gives: for 632.8 nm, f = 100 mm, an
    object at 150 mm and a waist of 0.5 mm the calculator works on a waist
    of 0.0005 m and a wavelength of 632.8e-9 m, its input Rayleigh range is
    [PI * 0.0005 ** 2 / 632.8e-9] meters, which is 1241.1 mm to one decimal
    (shown as 1241.15), and none of the seven derived values is NaN. *)
Theorem helium_neon_rayleigh_range :
  let i := convert Scenario.helium_neon in
  let r := formulas i in
  calculate i = Some r
  /\ w0 i = Float64.literal 0.0005
  /\ lambda i = Float64.literal 632.8e-9
  /\ zr r = Float64.PI * Float64.square (Float64.literal 0.0005)
            / Float64.literal 632.8e-9
  /\ Float64.to_fixed (zr r * Float64.literal 1000) 1 = "1241.1"%string
  /\ out_zr_in (display r) = "1241.15"%string
  /\ existsb is_nan [zr r; w0_prime r; alpha r; s_prime r;
                     theta_in r; theta_prime r; zr_prime r] = false.
Proof.
  cbv zeta. repeat split; vm_compute; reflexivity.
Qed.

End HeliumNeon.

(* ================================================================== *)
(** ** The beam envelopes *)

Section Envelopes.

Context {num : Type} `{Number num}.


Lemma andThen_emit (cs : list (cmd num)) (d : Draw num) :
  andThen (emit cs) d = (cs ++ fst d, snd d).
Proof. reflexivity. Qed.

Section OneBeam.

Variable g : Layout num.
Variables waistPos waistRadius rayleighRange startZ endZ : num.

Let top := top_envelope g waistPos waistRadius rayleighRange startZ endZ.
Let bottom := bottom_envelope g waistPos waistRadius rayleighRange startZ.
Let above := Spec.above_axis g waistPos waistRadius rayleighRange.
Let below := Spec.below_axis g waistPos waistRadius rayleighRange.




End OneBeam.

End Envelopes.

(* ================================================================== *)
(** ** The fill of the envelopes *)

Section Tints.

Context {num : Type} `{Number num}.

(** The one fill style of [drawBeam] (line 159). *)
Let tint : string := "rgba(255, 100, 100, 0.3)".

Lemma tints_app (current : string) (a b : list (cmd num)) :
  Spec.tints current (a ++ b)
  = Spec.tints current a ++ Spec.tints (Spec.style_after current a) b.
Proof.
  revert current. induction a as [ | c a IH ]; intros current; [ reflexivity | ].
  destruct c; cbn [app Spec.tints Spec.style_after]; rewrite ?IH; reflexivity.
Qed.

Lemma style_after_app (current : string) (a b : list (cmd num)) :
  Spec.style_after current (a ++ b)
  = Spec.style_after (Spec.style_after current a) b.
Proof.
  revert current. induction a as [ | c a IH ]; intros current; [ reflexivity | ].
  destruct c; cbn [app Spec.style_after]; rewrite ?IH; reflexivity.
Qed.

(** The loops only add points to the path. *)
Lemma top_envelope_no_fill (g : Layout num) (wp wr rr startZ endZ : num)
      (current : string) (fuel : nat) :
  forall z,
    Spec.tints current (fst (top_envelope g wp wr rr startZ endZ fuel z)) = []
    /\ Spec.style_after current (fst (top_envelope g wp wr rr startZ endZ fuel z))
       = current.
Proof.
  induction fuel as [ | fuel IH ]; intros z; simpl.
  - destruct (nle z endZ); split; reflexivity.
  - destruct (nle z endZ); [ | split; reflexivity ].
    rewrite andThen_emit. cbn [fst].
    destruct (IH (nadd z (ndiv (lit 1) (scaleX g)))) as [Ht Hs].
    destruct (strict_eq z startZ); cbn [app Spec.tints Spec.style_after]; auto.
Qed.

Lemma bottom_envelope_no_fill (g : Layout num) (wp wr rr startZ : num)
      (current : string) (fuel : nat) :
  forall z,
    Spec.tints current (fst (bottom_envelope g wp wr rr startZ fuel z)) = []
    /\ Spec.style_after current (fst (bottom_envelope g wp wr rr startZ fuel z))
       = current.
Proof.
  induction fuel as [ | fuel IH ]; intros z; simpl.
  - destruct (nle startZ z); split; reflexivity.
  - destruct (nle startZ z); [ | split; reflexivity ].
    rewrite andThen_emit. cbn [fst].
    destruct (IH (nsub z (ndiv (lit 1) (scaleX g)))) as [Ht Hs].
    cbn [app Spec.tints Spec.style_after]; auto.
Qed.

(** A beam that is drawn to its end is filled once, in [tint], and leaves
    [tint] as the fill style; one that is not is not filled. *)
Lemma drawBeam_tints (g : Layout num) (wp wr rr startZ endZ : num)
      (current : string) (fuel : nat) :
  let d := drawBeam g wp wr rr startZ endZ fuel in
  if snd d
  then Spec.tints current (fst d) = [tint] /\ Spec.style_after current (fst d) = tint
  else Spec.tints current (fst d) = [].
Proof.
  unfold drawBeam.
  destruct (top_envelope_no_fill g wp wr rr startZ endZ current fuel startZ) as [Ht Hts].
  destruct (bottom_envelope_no_fill g wp wr rr startZ current fuel endZ) as [Hb Hbs].
  destruct (top_envelope g wp wr rr startZ endZ fuel startZ) as [lt [ | ]],
           (bottom_envelope g wp wr rr startZ fuel endZ) as [lb [ | ]];
    cbn [andThen emit fst snd app Spec.tints Spec.style_after] in *;
    rewrite ?tints_app, ?style_after_app, ?Ht, ?Hts, ?Hb, ?Hbs;
    cbn [app Spec.tints Spec.style_after]; auto.
Qed.

(** C9, as the code has it: every envelope that is filled is filled in the
    one translucent tint [rgba(255, 100, 100, 0.3)], and a canvas drawn to
    its end has exactly two fills, the input beam's and the output beam's,
    both in that tint. *)
Theorem envelopes_share_one_tint (fuel : nat) (width height : N)
        (i : BeamInput num) (r : BeamResult num) (current : string) :
  let d := drawCanvas fuel width height i r in
  Forall (fun t => t = "rgba(255, 100, 100, 0.3)"%string) (Spec.tints current (fst d))
  /\ (snd d = true ->
      Spec.tints current (fst d)
      = ["rgba(255, 100, 100, 0.3)"; "rgba(255, 100, 100, 0.3)"]%string).
Proof.
  cbv zeta. unfold drawCanvas, input_beam, output_beam.
  set (g := layout width height i r).
  set (a := draw_axis_and_lens g).
  assert (Ha : Spec.tints current a = [] /\ Spec.style_after current a = current)
    by (split; reflexivity).
  destruct Ha as [Ha Has].
  pose proof (drawBeam_tints g (s i) (w0 i) (zr r)
                (ndiv (nneg (totalDist g)) (lit 2)) (lit 0) current fuel) as Hin.
  pose proof (fun c => drawBeam_tints g (s_prime r) (w0_prime r) (zr_prime r)
                (lit 0) (ndiv (totalDist g) (lit 2)) c fuel) as Hout.
  cbv zeta in Hin, Hout.
  destruct (drawBeam g (s i) (w0 i) (zr r) _ _ fuel) as [l1 [ | ]];
    cbn [fst snd] in Hin.
  - destruct Hin as [Hin Hins].
    specialize (Hout tint).
    destruct (drawBeam g (s_prime r) (w0_prime r) (zr_prime r) _ _ fuel) as [l2 [ | ]];
      cbn [fst snd] in Hout; cbn [andThen emit fst snd].
    + destruct Hout as [Hout Houts].
      rewrite !tints_app, !style_after_app, Ha, Has, Hin, Hins, Hout.
      split; [ | intros _ ]; cbn [app]; repeat constructor.
    + rewrite !tints_app, !style_after_app, Ha, Has, Hin, Hins, Hout.
      split; [ | discriminate ]; cbn [app]; repeat constructor.
  - cbn [andThen emit fst snd]. rewrite tints_app, Ha, Has, Hin.
    split; [ constructor | discriminate ].
Qed.

End Tints.

Section HeliumNeonCanvas.

(** On the helium-neon beam the canvas is drawn to its end and both
    envelopes are filled in the same tint. *)
Lemma helium_neon_one_tint :
  let i := convert Scenario.helium_neon in
  let d := drawCanvas 1000 800 400 i (formulas i) in
  snd d = true
  /\ Spec.tints "#000000" (fst d)
     = ["rgba(255, 100, 100, 0.3)"; "rgba(255, 100, 100, 0.3)"]%string
  /\ ~ Spec.distinct_tints "#000000" (fst d).
Proof.
  cbv zeta.
  assert (Hd : snd (drawCanvas 1000 800 400 (convert Scenario.helium_neon)
                      (formulas (convert Scenario.helium_neon))) = true)
    by (vm_compute; reflexivity).
  assert (Ht : Spec.tints "#000000"
                 (fst (drawCanvas 1000 800 400 (convert Scenario.helium_neon)
                         (formulas (convert Scenario.helium_neon))))
               = ["rgba(255, 100, 100, 0.3)"; "rgba(255, 100, 100, 0.3)"]%string)
    by (vm_compute; reflexivity).
  split; [ exact Hd | ]. split; [ exact Ht | ].
  unfold Spec.distinct_tints. rewrite Ht. intros Hne. apply Hne. reflexivity.
Qed.

Lemma envelopes_share_one_tint_witness :
  snd (drawCanvas 1000 800 400 (convert Scenario.helium_neon)
         (formulas (convert Scenario.helium_neon))) = true
  /\ Spec.tints "#000000"
       (fst (drawCanvas 1000 800 400 (convert Scenario.helium_neon)
               (formulas (convert Scenario.helium_neon))))
     = ["rgba(255, 100, 100, 0.3)"; "rgba(255, 100, 100, 0.3)"]%string.
Proof.
  assert (Hd : snd (drawCanvas 1000 800 400 (convert Scenario.helium_neon)
                      (formulas (convert Scenario.helium_neon))) = true)
    by (vm_compute; reflexivity).
  split; [ exact Hd | ].
  exact (proj2 (envelopes_share_one_tint 1000 800 400
                  (convert Scenario.helium_neon)
                  (formulas (convert Scenario.helium_neon)) "#000000") Hd).
Defined.


(** Each loop samples its own positions.  On the helium-neon beam, on
    doubles, the top loop of the input beam takes 400 samples from the
    left edge and stops one step before the lens, and the bottom loop
    takes 400 samples from the lens and stops one step before the left
    edge: the accumulated steps overshoot the far end by a rounding
    error. *)
Lemma helium_neon_samples :
  let i := convert Scenario.helium_neon in
  let g := layout 800 400 i (formulas i) in
  let startZ := (- totalDist g / lit 2)%js in
  let top := Spec.ascending g (lit 0) 1000 startZ in
  let bottom := Spec.descending g startZ 1000 (lit 0) in
  List.length top = 400%nat /\ List.length bottom = 400%nat
  /\ hd nan top = startZ /\ hd nan bottom = lit 0
  /\ existsb (fun z => z === lit 0)%js top = false
  /\ existsb (fun z => z === startZ)%js bottom = false.
Proof. cbv zeta. repeat split; vm_compute; reflexivity. Qed.

End HeliumNeonCanvas.

(* ================================================================== *)
(** ** The envelope loops end *)

Section ExactTermination.

Local Open Scope R_scope.



Section Loops.

Variable g : Layout R.
Variables waistPos waistRadius rayleighRange startZ endZ : R.




End Loops.



End ExactTermination.

(* ================================================================== *)
(** ** The shape of a formatted number *)

Section Formatting.

Local Open Scope string_scope.

Lemma length_append (a b : string) :
  String.length (a ++ b) = (String.length a + String.length b)%nat.
Proof. induction a as [ | c a IH ]; simpl; [ reflexivity | now rewrite IH ]. Qed.

Lemma length_zeros (k : nat) : String.length (Text.zeros k) = k.
Proof. induction k as [ | k IH ]; simpl; [ reflexivity | now rewrite IH ]. Qed.

Lemma take_drop (k : nat) (t : string) : Text.take k t ++ Text.drop k t = t.
Proof.
  revert t. induction k as [ | k IH ]; intros [ | c t ]; simpl; try reflexivity.
  now rewrite IH.
Qed.

Lemma length_drop (k : nat) (t : string) :
  String.length (Text.drop k t) = (String.length t - k)%nat.
Proof.
  revert t. induction k as [ | k IH ]; intros [ | c t ]; simpl; try reflexivity.
  apply IH.
Qed.

Lemma length_take (k : nat) (t : string) :
  (k <= String.length t)%nat -> String.length (Text.take k t) = k.
Proof.
  revert t. induction k as [ | k IH ]; intros [ | c t ]; simpl; intros Hk;
    try reflexivity; try lia.
  rewrite IH; [ reflexivity | lia ].
Qed.

(** With [fd > 0] digits asked for, the text is an integer part of at
    least one character, a point, and exactly [fd] characters. *)
Lemma fixed_digits_shape (n : Z) (fd : nat) :
  (0 < fd)%nat ->
  exists a b : string,
    Text.fixed_digits n fd = a ++ "." ++ b
    /\ String.length b = fd /\ (1 <= String.length a)%nat.
Proof.
  intros Hfd. unfold Text.fixed_digits. destruct fd as [ | fd' ]; [ lia | ].
  set (fd := S fd') in *. set (m0 := Text.digits n).
  set (m := if (String.length m0 <=? fd)%nat
            then Text.zeros (fd + 1 - String.length m0) ++ m0 else m0).
  assert (Hm : (fd + 1 <= String.length m)%nat).
  { subst m. destruct (Nat.leb_spec (String.length m0) fd) as [Hle | Hgt].
    - rewrite length_append, length_zeros. lia.
    - lia. }
  exists (Text.take (String.length m - fd) m), (Text.drop (String.length m - fd) m).
  split; [ reflexivity | ]. split.
  - rewrite length_drop. lia.
  - rewrite length_take; lia.
Qed.

(** A finite double below 1e21 is shown with exactly [fd] decimals. *)
Lemma to_fixed_decimals (x : float) (fd : nat) :
  (0 < fd)%nat ->
  is_nan x = false -> is_infinity x = false ->
  (1e21 <=? abs x)%float = false ->
  exists sign a b : string,
    Float64.to_fixed x fd = sign ++ a ++ "." ++ b
    /\ String.length b = fd /\ (1 <= String.length a)%nat
    /\ (sign = "" \/ sign = "-").
Proof.
  intros Hfd Hnan Hinf Hbig. unfold Float64.to_fixed. rewrite Hbig.
  assert (Hx : Prim2SF x <> S754_nan)
    by (intros E; apply is_nan_spec in E; congruence).
  assert (Hi : forall sg, Prim2SF x <> S754_infinity sg).
  { intros sg E. unfold is_infinity in Hinf.
    rewrite eqb_spec, abs_spec, E in Hinf. discriminate Hinf. }
  destruct (Prim2SF x) as [ sg | sg | | sg m e ].
  - destruct (fixed_digits_shape 0 fd Hfd) as (a & b & E & Hb & Ha).
    exists "", a, b. rewrite E. auto.
  - destruct (Hi sg eq_refl).
  - destruct (Hx eq_refl).
  - destruct (fixed_digits_shape (Float64.nearest_scaled m e fd) fd Hfd)
      as (a & b & E & Hb & Ha).
    exists (if sg then "-" else ""), a, b. rewrite E.
    repeat split; auto. destruct sg; auto.
Qed.

End Formatting.

(* ================================================================== *)
(** ** A cycle that does not end *)

Section ZeroStep.

Local Open Scope float_scope.

(** On doubles the envelope loops need not end.  With a focal length of
    2^-1060 mm the span is so small that [scaleX] overflows to infinity;
    the step [1 / scaleX] is then 0 and the first loop stays at its first
    position: whatever the fuel, the cycle does not reach its end (the
    display fields are assigned before the drawing starts). *)
Lemma zero_step_never_ends (fuel : nat) :
  snd (updateVisualization fuel Scenario.tiny_focal_length Scenario.page) = false
  /\ outputs (fst (updateVisualization fuel Scenario.tiny_focal_length Scenario.page))
     = display (formulas (convert Scenario.tiny_focal_length)).
Proof.
  unfold updateVisualization.
  set (i := convert Scenario.tiny_focal_length).
  assert (Hc : calculate i = Some (formulas i)) by (vm_compute; reflexivity).
  rewrite Hc. cbn [fst snd outputs]. split; [ | reflexivity ].
  unfold drawCanvas, input_beam, drawBeam.
  set (g := layout _ _ _ _).
  set (startZ := (- totalDist g / lit 2)%js).
  assert (Hstay : (startZ + lit 1 / scaleX g)%js = startZ)
    by (vm_compute; reflexivity).
  assert (Hle : (startZ <= lit 0)%js = true) by (vm_compute; reflexivity).
  assert (Hloop : forall n,
             snd (top_envelope g (s i) (w0 i) (zr (formulas i)) startZ (lit 0) n startZ)
             = false).
  { induction n as [ | n IH ]; cbn [top_envelope]; rewrite Hle; [ reflexivity | ].
    rewrite andThen_emit, Hstay. exact IH. }
  specialize (Hloop fuel).
  destruct (top_envelope g (s i) (w0 i) (zr (formulas i)) startZ (lit 0) fuel startZ)
    as [l b].
  cbn [snd] in Hloop. subst b. reflexivity.
Qed.

End ZeroStep.

(* ================================================================== *)
(** ** The model on known values *)

Section KnownValues.

Local Open Scope float_scope.

(** [toFixed] as ECMAScript has it: the exact binary value decides, ties go
    up, a negative value that rounds to zero keeps its sign, minus zero
    does not, and from 1e21 on the text is that of [String(x)]. *)
Lemma to_fixed_known_values :
  Float64.to_fixed (Float64.literal 1.005) 2 = "1.00"%string
  /\ Float64.to_fixed (Float64.literal 0.5) 0 = "1"%string
  /\ Float64.to_fixed (Float64.literal 2.5) 0 = "3"%string
  /\ Float64.to_fixed (Float64.literal (-0.001)) 2 = "-0.00"%string
  /\ Float64.to_fixed neg_zero 2 = "0.00"%string
  /\ Float64.to_fixed (Float64.literal 1234.5678) 1 = "1234.6"%string
  /\ Float64.to_fixed 1e21 2 = "1e+21"%string
  /\ Float64.to_fixed nan 2 = "NaN"%string
  /\ Float64.to_fixed neg_infinity 3 = "-Infinity"%string.
Proof. repeat split; vm_compute; reflexivity. Qed.

(** [Math.max] and [Math.min] on signed zeros and NaN. *)
Lemma max_min_known_values :
  Float64.max zero neg_zero = zero
  /\ Float64.max neg_zero zero = zero
  /\ Float64.min zero neg_zero = neg_zero
  /\ Float64.min neg_zero zero = neg_zero
  /\ Float64.max nan one = nan
  /\ Float64.max one infinity = infinity.
Proof. repeat split; vm_compute; reflexivity. Qed.

(** The literals of the script are the doubles nearest to them. *)
Lemma literal_known_values :
  Float64.literal 1e-9 = 0x1.12e0be826d695p-30
  /\ Float64.literal 1e-3 = 0x1.0624dd2f1a9fcp-10
  /\ Float64.literal 2.2 = 0x1.199999999999ap+1
  /\ Float64.literal 2.5 = 2.5
  /\ Float64.literal 1000 = 1000.
Proof. repeat split; vm_compute; reflexivity. Qed.

End KnownValues.

(* ================================================================== *)
(** * Further properties of the code *)

(* ================================================================== *)
(** ** The optics of the formulas *)

Section ExactOptics.

Local Open Scope R_scope.












End ExactOptics.

(* ================================================================== *)
(** ** The scene in exact arithmetic *)

Section ExactScene.

Local Open Scope R_scope.





Section Scene.

Variables (width height : N) (i : BeamInput R).
Hypothesis valid : Valid.exact i.

Let r := formulas i.
Let g := layout width height i r.
Let H := IZR (Z.of_N height).











End Scene.



End ExactScene.

(* ================================================================== *)
(** ** The columns of the envelopes *)

Section Paths.

Context {num : Type} `{Number num}.


End Paths.

Section Columns.

Local Open Scope R_scope.

Section Sampling.

Variable g : Layout R.
Variable step : R.
Hypothesis step_pos : 0 < step.
Hypothesis step_eq : 1 / scaleX g = step.





End Sampling.

Section Beams.

Variables (width height : N) (i : BeamInput R).
Hypothesis valid : Valid.exact i.
Hypothesis wide : (0 < width)%N.

Let r := formulas i.
Let g := layout width height i r.
Let n := N.to_nat (width / 2).





End Beams.


End Columns.

(* ================================================================== *)
(** ** Everything fits between the left and the right edge *)

Section Fit.

Local Open Scope R_scope.






End Fit.

(* ================================================================== *)
(** ** Loops that stall and loops that do not start *)

Section Stall.

Context {num : Type} `{Number num}.

Variable g : Layout num.
Variables wp wr rr startZ endZ : num.

(** A loop that is at a position which the step does not change stays
    there. *)
Lemma top_envelope_stalls (z : num) :
  nle z endZ = true -> nadd z (ndiv (lit 1) (scaleX g)) = z ->
  forall fuel, snd (top_envelope g wp wr rr startZ endZ fuel z) = false.
Proof.
  intros Hle Hstay fuel. induction fuel as [ | fuel IH ]; cbn [top_envelope];
    rewrite Hle; [ reflexivity | ].
  rewrite andThen_emit, Hstay. exact IH.
Qed.

Lemma top_envelope_stalls_later (k : nat) :
  forall z0 z,
    In z (Spec.ascending g endZ k z0) ->
    nadd z (ndiv (lit 1) (scaleX g)) = z ->
    forall fuel, snd (top_envelope g wp wr rr startZ endZ fuel z0) = false.
Proof.
  induction k as [ | k IH ]; intros z0 z Hin Hstay fuel; cbn [Spec.ascending] in Hin;
    destruct (nle z0 endZ) eqn:Hle; try contradiction.
  destruct Hin as [<- | Hin]; [ now apply top_envelope_stalls | ].
  destruct fuel as [ | fuel ]; cbn [top_envelope]; rewrite Hle; [ reflexivity | ].
  rewrite andThen_emit. cbn [snd]. exact (IH _ _ Hin Hstay fuel).
Qed.

Lemma drawBeam_stalls (k : nat) (z : num) :
  In z (Spec.ascending g endZ k startZ) ->
  nadd z (ndiv (lit 1) (scaleX g)) = z ->
  forall fuel, snd (drawBeam g wp wr rr startZ endZ fuel) = false.
Proof.
  intros Hin Hstay fuel. unfold drawBeam.
  pose proof (top_envelope_stalls_later k startZ z Hin Hstay fuel) as Ht.
  destruct (top_envelope g wp wr rr startZ endZ fuel startZ) as [lt b].
  cbn [snd] in Ht. subst b. reflexivity.
Qed.

End Stall.

Section DoubleLoops.

Local Open Scope float_scope.

Lemma leb_not_nan (a b : float) : (a <=? b) = true -> Prim2SF a <> S754_nan.
Proof.
  rewrite leb_spec. intros Hle E. rewrite E in Hle. discriminate Hle.
Qed.

(** Adding a zero twice is adding it once, and does not change how the
    number compares. *)
Lemma add_zero_twice (z step : float) (sg : bool) :
  Prim2SF step = S754_zero sg ->
  Prim2SF z <> S754_nan ->
  z + step + step = z + step
  /\ forall e, (z + step <=? e) = (z <=? e).
Proof.
  intros Hs Hz. split; [ apply Prim2SF_inj | intros e; rewrite !leb_spec ];
    rewrite !add_spec, Hs; unfold SF64add, SFleb;
    destruct (Prim2SF z) as [ [ | ] | [ | ] | | [ | ] m e' ], sg; simpl;
    try reflexivity; congruence.
Qed.

(** X10: on doubles a step of zero stalls the envelope loop.  When
    [1 / scaleX] is a zero (the scale is infinite, or so large that its
    inverse underflows) and the loop is entered ([startZ <= endZ]), the
    first loop of [drawBeam] never leaves its first position: the beam is
    not drawn to its end, whatever the number of iterations. *)
Theorem zero_step_stalls (g : Layout float) (wp wr rr startZ endZ : float) (sg : bool) :
  Prim2SF (lit 1 / scaleX g)%js = S754_zero sg ->
  (startZ <= endZ)%js = true ->
  forall fuel, snd (drawBeam g wp wr rr startZ endZ fuel) = false.
Proof.
  intros Hstep Hle.
  destruct (add_zero_twice startZ _ sg Hstep (leb_not_nan _ _ Hle)) as [Hstay Hcmp].
  apply drawBeam_stalls with (k := 2%nat) (z := (startZ + lit 1 / scaleX g)%js);
    [ | exact Hstay ].
  cbn [Spec.ascending]. rewrite Hle.
  change ((startZ + lit 1 / scaleX g <= endZ)%js)
    with (startZ + (lit 1 / scaleX g)%js <=? endZ).
  rewrite Hcmp. change (startZ <=? endZ) with ((startZ <= endZ)%js). rewrite Hle.
  right; left; reflexivity.
Qed.

Lemma zero_step_stalls_witness :
  let i := convert Scenario.tiny_focal_length in
  let r := formulas i in
  let g := layout 800 400 i r in
  Valid.double i = true
  /\ Prim2SF (lit 1 / scaleX g)%js = S754_zero false
  /\ (- totalDist g / lit 2 <= lit 0)%js = true
  /\ snd (input_beam g i r 1000) = false.
Proof.
  cbv zeta. split; [ reflexivity | ].
  split; [ vm_compute; reflexivity | ]. split; [ vm_compute; reflexivity | ].
  apply (zero_step_stalls _ _ _ _ _ _ false); vm_compute; reflexivity.
Defined.

Lemma nan_leb_l (a b : float) : is_nan a = true -> (a <=? b) = false.
Proof. rewrite is_nan_spec, leb_spec. intros ->. reflexivity. Qed.

Lemma nan_leb_r (a b : float) : is_nan b = true -> (a <=? b) = false.
Proof.
  rewrite is_nan_spec, leb_spec. intros ->.
  destruct (Prim2SF a) as [ [ | ] | [ | ] | | [ | ] m e ]; reflexivity.
Qed.

Lemma div_nan_l (x c : float) : is_nan x = true -> is_nan (x / c) = true.
Proof. rewrite !is_nan_spec, div_spec. intros ->. reflexivity. Qed.

(** A span that is not a number: neither loop of either beam is
    entered. *)
Lemma nan_span_beams (g : Layout float) (i : BeamInput float)
      (r : BeamResult float) (fuel : nat) :
  is_nan (totalDist g) = true ->
  input_beam g i r fuel
  = ([beginPath; closePath; fillStyle "rgba(255, 100, 100, 0.3)"; fill], true)
  /\ output_beam g r fuel
     = ([beginPath; closePath; fillStyle "rgba(255, 100, 100, 0.3)"; fill], true).
Proof.
  intros Hnan.
  assert (Hs : is_nan (- totalDist g / lit 2)%js = true)
    by (apply div_nan_l, opp_nan, Hnan).
  assert (He : is_nan (totalDist g / lit 2)%js = true) by (apply div_nan_l, Hnan).
  unfold input_beam, output_beam, drawBeam.
  assert (Ht1 : forall wp wr rr z, top_envelope g wp wr rr z (lit 0) fuel
                     (- totalDist g / lit 2)%js = emit []).
  { intros. destruct fuel; cbn [top_envelope nle Float64.number];
      rewrite (nan_leb_l _ _ Hs); reflexivity. }
  assert (Hb1 : forall wp wr rr, bottom_envelope g wp wr rr (- totalDist g / lit 2)%js
                     fuel (lit 0) = emit []).
  { intros. destruct fuel; cbn [bottom_envelope nle Float64.number];
      rewrite (nan_leb_l _ _ Hs); reflexivity. }
  assert (Ht2 : forall wp wr rr z, top_envelope g wp wr rr z (totalDist g / lit 2)%js fuel
                     (lit 0) = emit []).
  { intros. destruct fuel; cbn [top_envelope nle Float64.number];
      rewrite (nan_leb_r _ _ He); reflexivity. }
  assert (Hb2 : forall wp wr rr, bottom_envelope g wp wr rr (lit 0)
                     fuel (totalDist g / lit 2)%js = emit []).
  { intros. destruct fuel; cbn [bottom_envelope nle Float64.number];
      rewrite (nan_leb_r _ _ He); reflexivity. }
  rewrite Ht1, Hb1, Ht2, Hb2. split; reflexivity.
Qed.

(** An output waist position that is not a number makes the span one. *)
Lemma nan_position_nan_span (width height : N) (i : BeamInput float)
      (r : BeamResult float) :
  is_nan (s_prime r) = true -> is_nan (totalDist (layout width height i r)) = true.
Proof.
  intros Hn. unfold layout. cbn [totalDist Math_max Math_abs nmul Float64.number].
  apply mul_nan_l. rewrite (max_nan_r _ _ Hn).
  rewrite !(max_nan_l _ _ is_nan_nan). exact is_nan_nan.
Qed.

(** X11: on doubles an output waist position that is not a number
    leaves the canvas without envelopes.  The span is then NaN, no loop
    is entered, and the drawing is the axis and the lens, two empty paths
    that are filled, and the annotations; it ends without a single
    iteration. *)
Theorem nan_position_draws_no_envelope (fuel : nat) (width height : N)
        (i : BeamInput float) (r : BeamResult float) :
  is_nan (s_prime r) = true ->
  let g := layout width height i r in
  drawCanvas fuel width height i r
  = (draw_axis_and_lens g
     ++ [beginPath; closePath; fillStyle "rgba(255, 100, 100, 0.3)"; fill]
     ++ [beginPath; closePath; fillStyle "rgba(255, 100, 100, 0.3)"; fill]
     ++ draw_annotations g i r, true).
Proof.
  intros Hn g. unfold drawCanvas. fold g.
  destruct (nan_span_beams g i r fuel (nan_position_nan_span width height i r Hn))
    as [-> ->].
  cbn [andThen emit fst snd]. now rewrite <- !app_assoc.
Qed.

Lemma nan_position_draws_no_envelope_witness :
  let i := convert Scenario.tiny_waist in
  Valid.double i = true
  /\ is_nan (s_prime (formulas i)) = true
  /\ snd (drawCanvas 0 800 400 i (formulas i)) = true.
Proof.
  cbv zeta. split; [ reflexivity | ].
  assert (Hn : is_nan (s_prime (formulas (convert Scenario.tiny_waist))) = true)
    by (vm_compute; reflexivity).
  split; [ exact Hn | ].
  rewrite (nan_position_draws_no_envelope 0 800 400 _ _ Hn). reflexivity.
Defined.

End DoubleLoops.

(* ================================================================== *)
(** ** Signs on doubles *)

Section Signs.

Local Open Scope float_scope.

(** A positive double is a finite number or infinity with a clear sign. *)
Lemma positive_cases (x : float) :
  (zero <? x) = true ->
  Prim2SF x = S754_infinity false \/ exists m e, Prim2SF x = S754_finite false m e.
Proof.
  rewrite ltb_spec. unfold SFltb. change (Prim2SF zero) with (S754_zero false).
  destruct (Prim2SF x) as [ [ | ] | [ | ] | | [ | ] m e ]; simpl; try discriminate;
    intros _; [ left; reflexivity | right; now exists m, e ].
Qed.

Lemma finite_positive (x : float) :
  (zero <? x) = true -> is_infinity x = false ->
  exists m e, Prim2SF x = S754_finite false m e.
Proof.
  intros Hp Hi. destruct (positive_cases x Hp) as [E | E]; [ | exact E ].
  unfold is_infinity in Hi. rewrite eqb_spec, abs_spec, E in Hi. discriminate Hi.
Qed.

Lemma mul_signed (a b : float) (mb : positive) (eb : Z) :
  signed_as false (Prim2SF a) -> Prim2SF b = S754_finite false mb eb ->
  signed_as false (Prim2SF (a * b)).
Proof.
  intros Ha Hb. rewrite mul_spec, Hb. unfold SF64mul.
  destruct (Prim2SF a) as [ sa | sa | | sa m e ]; simpl in *; subst; try reflexivity;
    try contradiction.
  apply (binary_round_aux_sign false (Zpos (m * mb))). lia.
Qed.

Lemma mul_signed_l (a b : float) (ma : positive) (ea : Z) :
  Prim2SF a = S754_finite false ma ea -> signed_as false (Prim2SF b) ->
  signed_as false (Prim2SF (a * b)).
Proof.
  intros Ha Hb. rewrite mul_spec, Ha. unfold SF64mul.
  destruct (Prim2SF b) as [ sb | sb | | sb m e ]; simpl in *; subst; try reflexivity;
    try contradiction.
  apply (binary_round_aux_sign false (Zpos (ma * m))). lia.
Qed.

Lemma square_signed (a : float) :
  (zero <? a) = true -> signed_as false (Prim2SF (a * a)).
Proof.
  intros Hp. rewrite mul_spec. unfold SF64mul.
  destruct (positive_cases a Hp) as [E | (m & e & E)]; rewrite E; simpl;
    [ reflexivity | ].
  apply (binary_round_aux_sign false (Zpos (m * m))). lia.
Qed.

Lemma div_core_nonneg (m1 e1 m2 e2 : Z) :
  (0 <= m1)%Z -> (0 < m2)%Z ->
  (0 <= fst (fst (SFdiv_core_binary prec emax m1 e1 m2 e2)))%Z.
Proof.
  intros H1 H2. unfold SFdiv_core_binary.
  set (s := (e1 - e2 - _)%Z).
  set (m' := match s with 0%Z => m1 | Zpos _ => Z.shiftl m1 s | Zneg _ => 0%Z end).
  assert (Hm' : (0 <= m')%Z).
  { subst m'. destruct s; try lia. apply Z.shiftl_nonneg. exact H1. }
  pose proof (Z_div_mod m' m2 ltac:(lia)) as Hd.
  unfold Z.div_eucl in *. fold (Z.div_eucl m' m2) in *.
  destruct (Z.div_eucl m' m2) as [q r]. simpl.
  destruct Hd as [Hd Hr]. nia.
Qed.

Lemma div_signed (a b : float) (mb : positive) (eb : Z) :
  signed_as false (Prim2SF a) -> Prim2SF b = S754_finite false mb eb ->
  signed_as false (Prim2SF (a / b)).
Proof.
  intros Ha Hb. rewrite div_spec, Hb. unfold SF64div, SFdiv.
  destruct (Prim2SF a) as [ sa | sa | | sa m e ]; simpl in *; subst; try reflexivity;
    try contradiction.
  pose proof (div_core_nonneg (Zpos m) e (Zpos mb) eb ltac:(lia) ltac:(lia)) as Hq.
  destruct (SFdiv_core_binary prec emax (Zpos m) e (Zpos mb) eb) as [[mz ez] lz].
  apply binary_round_aux_sign. exact Hq.
Qed.

Lemma div_signed_l (a b : float) (ma : positive) (ea : Z) :
  Prim2SF a = S754_finite false ma ea -> signed_as false (Prim2SF b) ->
  signed_as false (Prim2SF (a / b)).
Proof.
  intros Ha Hb. rewrite div_spec, Ha. unfold SF64div, SFdiv.
  destruct (Prim2SF b) as [ sb | sb | | sb m e ]; simpl in *; subst; try reflexivity;
    try contradiction.
  pose proof (div_core_nonneg (Zpos ma) ea (Zpos m) e ltac:(lia) ltac:(lia)) as Hq.
  destruct (SFdiv_core_binary prec emax (Zpos ma) ea (Zpos m) e) as [[mz ez] lz].
  apply binary_round_aux_sign. exact Hq.
Qed.

Local Open Scope string_scope.

Lemma digits_first (n : Z) :
  exists c rest, Text.digits n = String c rest /\ Parse.is_digit c = true.
Proof.
  unfold Text.digits, NilZero.string_of_uint.
  destruct (N.to_uint (Z.to_N n)) as [ | d | d | d | d | d | d | d | d | d | d ];
    simpl; do 2 eexists; split; reflexivity.
Qed.

Lemma fixed_digits_first (n : Z) (fd : nat) :
  exists c rest, Text.fixed_digits n fd = String c rest /\ Parse.is_digit c = true.
Proof.
  unfold Text.fixed_digits. destruct (digits_first n) as (c & rest & E & Hc).
  destruct fd as [ | fd' ]; [ now exists c, rest | ].
  set (fd := S fd'). rewrite E.
  set (m0 := String c rest).
  set (m := if (String.length m0 <=? fd)%nat
            then Text.zeros (fd + 1 - String.length m0) ++ m0 else m0).
  assert (Hm : exists c' rest', m = String c' rest' /\ Parse.is_digit c' = true
                                /\ (fd + 1 <= String.length m)%nat).
  { subst m. destruct (Nat.leb_spec (String.length m0) fd) as [Hle | Hgt].
    - destruct (fd + 1 - String.length m0)%nat as [ | j ] eqn:Ej; [ lia | ].
      cbn [Text.zeros append]. do 2 eexists. split; [ reflexivity | ].
      split; [ reflexivity | ].
      cbn [String.length]. rewrite length_append, length_zeros. lia.
    - exists c, rest. repeat split; [ exact Hc | lia ]. }
  destruct Hm as (c' & rest' & Em & Hc' & Hlen). rewrite Em in *.
  cbn [String.length] in *.
  destruct (S (String.length rest') - fd)%nat as [ | j ] eqn:Ej; [ lia | ].
  cbn [Text.take append]. now do 2 eexists.
Qed.

Lemma strip_zeros_first (t : string) :
  Text.strip_zeros t = EmptyString
  \/ Parse.first_char (Text.strip_zeros t) = Parse.first_char t.
Proof.
  destruct t as [ | c t ]; [ left; reflexivity | ]. cbn [Text.strip_zeros].
  destruct (Text.strip_zeros t); [ destruct (Ascii.eqb c "0"); [ left | right ] | right ];
    reflexivity.
Qed.

Lemma toString_large_first (m : positive) (e : Z) :
  let c := Parse.first_char (Float64.toString_large m e) in
  Parse.is_digit c = true \/ c = "e"%char.
Proof.
  cbv zeta. unfold Float64.toString_large.
  destruct (digits_first (Float64.shortest m e 17 1)) as (c & rest & E & Hc).
  rewrite E. clear E.
  destruct (strip_zeros_first (String c rest)) as [E0 | Ef].
  - rewrite E0. right. reflexivity.
  - cbn [Parse.first_char] in Ef.
    destruct (Text.strip_zeros (String c rest)) as [ | c' [ | c'' t ] ];
      cbn [Parse.first_char append] in *; subst; auto.
Qed.

Lemma digit_not_sign (c : ascii) :
  Parse.is_digit c = true -> c <> "-"%char /\ c <> "N"%char.
Proof.
  intros Hd. split; intros ->; vm_compute in Hd; discriminate Hd.
Qed.

(** The text of a number that is not NaN and has a clear sign bit does
    not start with a minus sign and is not ["NaN"]. *)
Lemma to_fixed_unsigned (x : float) (fd : nat) :
  signed_as false (Prim2SF x) ->
  Parse.first_char (Float64.to_fixed x fd) <> "-"%char
  /\ Float64.to_fixed x fd <> "NaN".
Proof.
  intros Hs.
  assert (Hc : Parse.first_char (Float64.to_fixed x fd) <> "-"%char
               /\ Parse.first_char (Float64.to_fixed x fd) <> "N"%char).
  { unfold Float64.to_fixed.
    destruct (Prim2SF x) as [ sx | sx | | sx m e ]; simpl in Hs; subst; try contradiction.
    - destruct (fixed_digits_first 0 fd) as (c & rest & E & Hd). rewrite E.
      apply digit_not_sign, Hd.
    - split; discriminate.
    - cbn [append]. destruct (1e21 <=? abs x)%float.
      + destruct (toString_large_first m e) as [Hd | He].
        * apply digit_not_sign, Hd.
        * rewrite He. split; discriminate.
      + destruct (fixed_digits_first (Float64.nearest_scaled m e fd) fd)
          as (c & rest & E & Hd).
        rewrite E. apply digit_not_sign, Hd. }
  destruct Hc as [Hminus HN]. split; [ exact Hminus | ].
  intros E. rewrite E in HN. apply HN. reflexivity.
Qed.

Local Open Scope float_scope.

(** X12: on doubles the input Rayleigh range and the input divergence
    are never NaN and never negative.  On every input that passes the
    guard and has a finite wavelength, [zr] and [theta_in] are a zero, a
    positive number or plus infinity, whatever overflows or underflows on
    the way; so the two display fields [zr_in] and [theta_in] never show
    [NaN] and never start with a minus sign. *)
Theorem rayleigh_range_and_divergence_signed (i : BeamInput float) :
  Valid.double i = true -> is_infinity (lambda i) = false ->
  let r := formulas i in
  signed_as false (Prim2SF (zr r))
  /\ signed_as false (Prim2SF (theta_in r))
  /\ out_zr_in (display r) <> "NaN"%string
  /\ Parse.first_char (out_zr_in (display r)) <> "-"%char
  /\ out_theta_in (display r) <> "NaN"%string
  /\ Parse.first_char (out_theta_in (display r)) <> "-"%char.
Proof.
  intros Hv Hfin. cbv zeta.
  unfold Valid.double in Hv. rewrite !andb_true_iff in Hv.
  destruct Hv as [[[_ Hl] _] Hw].
  destruct (finite_positive _ Hl Hfin) as (ml & el & El).
  assert (Hpi : exists m e, Prim2SF Float64.PI = S754_finite false m e)
    by (do 2 eexists; vm_compute; reflexivity).
  assert (Hk : exists m e, Prim2SF (Float64.literal 1000) = S754_finite false m e)
    by (do 2 eexists; vm_compute; reflexivity).
  destruct Hpi as (mp & ep & Ep), Hk as (mk & ek & Ek).
  assert (Hzr : signed_as false (Prim2SF (zr (formulas i)))).
  { unfold formulas. cbn [zr Math_PI pow2 nmul ndiv Float64.number]. unfold Float64.square.
    apply div_signed with (mb := ml) (eb := el); [ | exact El ].
    apply mul_signed_l with (ma := mp) (ea := ep); [ exact Ep | ].
    apply square_signed, Hw. }
  assert (Hth : signed_as false (Prim2SF (theta_in (formulas i)))).
  { unfold formulas. cbn [theta_in Math_PI pow2 nmul ndiv Float64.number].
    apply div_signed_l with (ma := ml) (ea := el); [ exact El | ].
    apply mul_signed_l with (ma := mp) (ea := ep); [ exact Ep | ].
    destruct (positive_cases _ Hw) as [E | (m & e & E)]; rewrite E; reflexivity. }
  split; [ exact Hzr | ]. split; [ exact Hth | ].
  unfold display. cbn [out_zr_in out_theta_in toFixed nmul lit Float64.number].
  destruct (to_fixed_unsigned (zr (formulas i) * Float64.literal 1000) 2
              (mul_signed _ _ mk ek Hzr Ek)) as [H1 H2].
  destruct (to_fixed_unsigned (theta_in (formulas i) * Float64.literal 1000) 3
              (mul_signed _ _ mk ek Hth Ek)) as [H3 H4].
  auto.
Qed.

Lemma rayleigh_range_and_divergence_signed_witness :
  Valid.double (convert Scenario.helium_neon) = true
  /\ is_infinity (lambda (convert Scenario.helium_neon)) = false
  /\ signed_as false (Prim2SF (zr (formulas (convert Scenario.helium_neon)))).
Proof.
  split; [ reflexivity | ]. split; [ reflexivity | ].
  apply (rayleigh_range_and_divergence_signed (convert Scenario.helium_neon));
    reflexivity.
Defined.

End Signs.

(* ================================================================== *)
(** ** From the front focal plane to the back focal plane, on doubles *)

Section FocalPlane.

Local Open Scope float_scope.

Lemma binary_round_aux_opp (sx : bool) (mx ex : Z) (lx : location) :
  binary_round_aux prec emax (negb sx) mx ex lx
  = SFopp (binary_round_aux prec emax sx mx ex lx).
Proof.
  unfold binary_round_aux.
  destruct (shr_fexp prec emax mx ex lx) as [mrs' e'].
  destruct (shr_fexp prec emax _ e' loc_Exact) as [mrs'' e''].
  destruct (shr_m mrs''); try reflexivity.
  destruct (e'' <=? emax - prec)%Z; reflexivity.
Qed.

(** Rounding is symmetric: the product of the opposite is the opposite
    of the product. *)
Lemma mul_opp_l (a b : float) : (- a) * b = - (a * b).
Proof.
  apply Prim2SF_inj. rewrite opp_spec, !mul_spec, opp_spec. unfold SF64mul.
  destruct (Prim2SF a) as [ sa | sa | | sa ma ea ],
           (Prim2SF b) as [ sb | sb | | sb mb eb ];
    cbn [SFmul SFopp]; try reflexivity;
    try (destruct sa, sb; reflexivity).
  rewrite <- binary_round_aux_opp. now destruct sa, sb.
Qed.

Lemma opp_involutive (a : float) : - - a = a.
Proof.
  apply Prim2SF_inj. rewrite !opp_spec.
  destruct (Prim2SF a) as [ [ | ] | [ | ] | | [ | ] m e ]; reflexivity.
Qed.

Lemma shl_align_same (m : positive) (e : Z) : shl_align m e e = (m, e).
Proof. unfold shl_align. now rewrite Z.sub_diag. Qed.

Lemma sub_self (a : float) (m : positive) (e : Z) :
  Prim2SF a = S754_finite false m e -> Prim2SF (a - a) = S754_zero false.
Proof.
  intros Ha. rewrite sub_spec, Ha. unfold SF64sub, SFsub.
  rewrite Z.min_id, shl_align_same. cbn [fst cond_Zopp]. now rewrite Z.sub_diag.
Qed.

(** A square that is finite, times plus zero, is plus zero. *)
Lemma square_times_zero (a z : float) :
  is_nan (a * a) = false -> is_infinity (a * a) = false ->
  Prim2SF z = S754_zero false ->
  Prim2SF (a * a * z) = S754_zero false.
Proof.
  intros Hn Hi Hz.
  assert (Hnn : Prim2SF (a * a) <> S754_nan).
  { intros E. apply is_nan_spec in E. congruence. }
  assert (Hni : forall sg, Prim2SF (a * a) <> S754_infinity sg).
  { intros sg E. unfold is_infinity in Hi. rewrite eqb_spec, abs_spec, E in Hi.
    discriminate Hi. }
  assert (Hs : signed_as false (Prim2SF (a * a))).
  { revert Hnn. rewrite mul_spec. unfold SF64mul.
    destruct (Prim2SF a) as [ sa | sa | | sa ma ea ]; cbn [SFmul]; intros Hnn;
      try (destruct sa; reflexivity); try congruence.
    replace (xorb sa sa) with false by (now destruct sa).
    apply (binary_round_aux_sign false (Zpos (ma * ma))). lia. }
  rewrite (mul_spec (a * a) z), Hz. unfold SF64mul.
  destruct (Prim2SF (a * a)) as [ sq | sq | | sq mq eq ]; cbn [SFmul];
    unfold signed_as in Hs; subst; try reflexivity; try congruence.
Qed.

Lemma add_zero_finite (a z : float) (m : positive) (e : Z) (sg : bool) :
  Prim2SF a = S754_finite false m e -> Prim2SF z = S754_zero sg -> a + z = a.
Proof.
  intros Ha Hz. apply Prim2SF_inj. rewrite add_spec, Ha, Hz. reflexivity.
Qed.

(** X13: on doubles a waist in the front focal plane is imaged into the
    back focal plane exactly.  When the object-distance field and the
    focal-length field hold the same number, the input is accepted with a
    finite focal length, and the square of the magnification is finite,
    then [s] is exactly [-f], [s_prime] is exactly [f] and the [s_prime]
    field shows the focal length: no rounding error enters. *)
Theorem focal_plane_to_focal_plane (e : Inputs float) :
  let i := convert e in
  let r := formulas i in
  s_value e = f_value e ->
  Valid.double i = true -> is_infinity (f i) = false ->
  is_nan (pow2 (alpha r)) = false -> is_infinity (pow2 (alpha r)) = false ->
  s i = (- f i)%js
  /\ s_prime r = f i
  /\ out_s_prime (display r) = toFixed (f i * lit 1000)%js 2.
Proof.
  intros i r Hsf Hv Hfin Hn Hi.
  unfold Valid.double in Hv. rewrite !andb_true_iff in Hv.
  destruct Hv as [[_ Hf] _].
  destruct (finite_positive _ Hf Hfin) as (m & ex & Ef).
  assert (Hs : s i = - f i).
  { subst i. unfold convert. cbn [s f nmul nneg lit Float64.number].
    rewrite Hsf. apply mul_opp_l. }
  assert (Hs' : s_prime r = f i).
  { subst r.
    change (s_prime (formulas i))
      with (f i + Float64.square (alpha (formulas i)) * (- s i - f i)).
    rewrite Hs, opp_involutive.
    apply add_zero_finite with (m := m) (e := ex) (sg := false); [ exact Ef | ].
    apply square_times_zero; [ exact Hn | exact Hi | ].
    apply sub_self with (m := m) (e := ex). exact Ef. }
  split; [ exact Hs | ]. split; [ exact Hs' | ].
  unfold display. cbn [out_s_prime]. now rewrite Hs'.
Qed.

Lemma focal_plane_to_focal_plane_witness :
  s_value Example.at_front_focus = f_value Example.at_front_focus
  /\ Valid.double (convert Example.at_front_focus) = true
  /\ s_prime (formulas (convert Example.at_front_focus))
     = f (convert Example.at_front_focus)
  /\ out_s_prime (display (formulas (convert Example.at_front_focus)))
     = "100.00"%string.
Proof.
  split; [ reflexivity | ]. split; [ reflexivity | ].
  destruct (focal_plane_to_focal_plane Example.at_front_focus eq_refl eq_refl eq_refl
              eq_refl eq_refl) as (_ & Hs & Ho).
  split; [ exact Hs | ]. rewrite Ho. vm_compute. reflexivity.
Defined.

End FocalPlane.

(* ================================================================== *)
(** ** The labels and the styles of the annotations *)

Section Labels.

Context {num : Type} `{Number num}.

(** A drawing that ran to its end ends with the annotations. *)
Lemma drawCanvas_annotations (fuel : nat) (width height : N)
      (i : BeamInput num) (r : BeamResult num) :
  snd (drawCanvas fuel width height i r) = true ->
  exists before,
    fst (drawCanvas fuel width height i r)
    = before ++ draw_annotations (layout width height i r) i r.
Proof.
  unfold drawCanvas. set (g := layout width height i r).
  destruct (input_beam g i r fuel) as [l1 [ | ]],
           (output_beam g r fuel) as [l2 [ | ]];
    cbn [andThen emit fst snd]; intros Hdone; try discriminate.
  exists (draw_axis_and_lens g ++ l1 ++ l2). now rewrite <- !app_assoc.
Qed.

(** X14: the numbers drawn on the canvas are the numbers of the display
    fields.  After a cycle that was accepted and ran to its end, for any
    arithmetic, the canvas carries the labels of both Rayleigh ranges,
    both divergences and the output waist with exactly the texts of the
    five display fields; the label of the output waist position is
    formatted anew, with one decimal where the field has two. *)
Theorem labels_repeat_the_fields (fuel : nat) (i : Inputs num) (page : Page num)
        (r : BeamResult num) :
  calculate (convert i) = Some r ->
  snd (updateVisualization fuel i page) = true ->
  let page' := fst (updateVisualization fuel i page) in
  let shown := outputs page' in
  Canvas.labelled (surface page') ("zʀ = " ++ out_zr_in shown ++ " mm")
  /\ Canvas.labelled (surface page') ("θ = " ++ out_theta_in shown ++ " mrad")
  /\ Canvas.labelled (surface page') ("w₀' = " ++ out_w0_prime shown ++ " mm")
  /\ Canvas.labelled (surface page') ("zʀ' = " ++ out_zr_prime shown ++ " mm")
  /\ Canvas.labelled (surface page') ("θ' = " ++ out_theta_prime shown ++ " mrad")
  /\ Canvas.labelled (surface page')
       ("s' = " ++ toFixed (nmul (s_prime r) (lit 1000)) 1 ++ " mm").
Proof.
  intros Hr. unfold updateVisualization. rewrite Hr. cbn [fst snd outputs surface].
  intros Hdone.
  destruct (drawCanvas_annotations _ _ _ _ _ Hdone) as [before ->].
  set (g := layout _ _ _ _).
  assert (Hl : forall text x y,
             In (fillText text x y) (draw_annotations g (convert i) r) ->
             Canvas.labelled (surface page ++ before ++ draw_annotations g (convert i) r)
               text).
  { intros text x y Hin. exists x, y. rewrite !in_app_iff. auto. }
  unfold display. cbn [out_zr_in out_theta_in out_w0_prime out_zr_prime out_theta_prime].
  repeat split; eapply Hl; unfold draw_annotations, drawAnnotationLine;
    rewrite !in_app_iff; cbn [In]; tauto.
Qed.

End Labels.

Section Styles.

Context {num : Type} `{Number num}.

Lemma painting_app (st : Canvas.Style num) (a b : list (cmd num)) :
  Canvas.painting st (a ++ b)
  = Canvas.painting st a ++ Canvas.painting (Canvas.state_after st a) b.
Proof.
  revert st. induction a as [ | c a IH ]; intros st; [ reflexivity | ].
  cbn [app Canvas.painting Canvas.state_after fold_left].
  rewrite IH, app_assoc. reflexivity.
Qed.

Lemma state_after_app (st : Canvas.Style num) (a b : list (cmd num)) :
  Canvas.state_after st (a ++ b) = Canvas.state_after (Canvas.state_after st a) b.
Proof. apply fold_left_app. Qed.

(** The envelope loops paint nothing and assign nothing. *)
Lemma top_envelope_plain (g : Layout num) (wp wr rr startZ endZ : num)
      (st : Canvas.Style num) (fuel : nat) :
  forall z,
    Canvas.painting st (fst (top_envelope g wp wr rr startZ endZ fuel z)) = []
    /\ Canvas.state_after st (fst (top_envelope g wp wr rr startZ endZ fuel z)) = st.
Proof.
  induction fuel as [ | fuel IH ]; intros z; cbn [top_envelope].
  - destruct (nle z endZ); split; reflexivity.
  - destruct (nle z endZ); [ | split; reflexivity ].
    rewrite andThen_emit. cbn [fst].
    destruct (IH (nadd z (ndiv (lit 1) (scaleX g)))) as [Hp Hs].
    destruct (strict_eq z startZ);
      cbn [app Canvas.painting Canvas.paints Canvas.assign Canvas.state_after fold_left];
      auto.
Qed.

Lemma bottom_envelope_plain (g : Layout num) (wp wr rr startZ : num)
      (st : Canvas.Style num) (fuel : nat) :
  forall z,
    Canvas.painting st (fst (bottom_envelope g wp wr rr startZ fuel z)) = []
    /\ Canvas.state_after st (fst (bottom_envelope g wp wr rr startZ fuel z)) = st.
Proof.
  induction fuel as [ | fuel IH ]; intros z; cbn [bottom_envelope].
  - destruct (nle startZ z); split; reflexivity.
  - destruct (nle startZ z); [ | split; reflexivity ].
    rewrite andThen_emit. cbn [fst].
    destruct (IH (nsub z (ndiv (lit 1) (scaleX g)))) as [Hp Hs].
    cbn [app Canvas.painting Canvas.paints Canvas.assign Canvas.state_after fold_left];
      auto.
Qed.

(** A beam drawn to its end is one fill, in the fill style it assigns. *)
Lemma drawBeam_painting (g : Layout num) (wp wr rr startZ endZ : num)
      (st : Canvas.Style num) (fuel : nat) :
  snd (drawBeam g wp wr rr startZ endZ fuel) = true ->
  Canvas.painting st (fst (drawBeam g wp wr rr startZ endZ fuel))
  = [Canvas.filled "rgba(255, 100, 100, 0.3)"]
  /\ Canvas.state_after st (fst (drawBeam g wp wr rr startZ endZ fuel))
     = Canvas.assign st (fillStyle "rgba(255, 100, 100, 0.3)").
Proof.
  unfold drawBeam.
  destruct (top_envelope_plain g wp wr rr startZ endZ st fuel startZ) as [Ht Hts].
  destruct (bottom_envelope_plain g wp wr rr startZ st fuel endZ) as [Hb Hbs].
  destruct (top_envelope g wp wr rr startZ endZ fuel startZ) as [lt [ | ]],
           (bottom_envelope g wp wr rr startZ fuel endZ) as [lb [ | ]];
    cbn [andThen emit fst snd app] in *; intros Hdone; try discriminate.
  cbn [Canvas.painting Canvas.paints Canvas.assign Canvas.state_after fold_left app].
  change (fold_left Canvas.assign ((lt ++ lb) ++ ?x) st)
    with (Canvas.state_after st ((lt ++ lb) ++ x)).
  rewrite !painting_app, !state_after_app, Ht, Hts, Hb, Hbs. split; reflexivity.
Qed.

(** X15: a drawing assigns every style before it uses it, except the
    line width of the optical axis.  For a drawing that ran to its end,
    for any arithmetic and any input, the paint it puts on the canvas
    depends on the state of the context it starts in only through the
    width of its first stroke (the optical axis, stroked in black); and
    it leaves the context with stroke style blue, fill style black, line
    width 1, font 12px Arial and centred text, so that a next drawing
    strokes the axis with width 1. *)
Theorem styles_set_before_use (fuel : nat) (width height : N)
        (i : BeamInput num) (r : BeamResult num) :
  snd (drawCanvas fuel width height i r) = true ->
  exists rest,
    (forall st : Canvas.Style num,
        Canvas.painting st (fst (drawCanvas fuel width height i r))
        = Canvas.stroked "black" (Canvas.line_width st) :: rest)
    /\ (forall st : Canvas.Style num,
           Canvas.state_after st (fst (drawCanvas fuel width height i r))
           = {| Canvas.stroke_style := "blue"; Canvas.fill_style := "black";
                Canvas.line_width := lit 1; Canvas.text_font := "12px Arial";
                Canvas.text_align := "center" |}).
Proof.
  unfold drawCanvas, input_beam, output_beam. set (g := layout width height i r).
  intros Hdone.
  pose proof (fun st => drawBeam_painting g (s i) (w0 i) (zr r)
                          (ndiv (nneg (totalDist g)) (lit 2)) (lit 0) st fuel) as Hin.
  pose proof (fun st => drawBeam_painting g (s_prime r) (w0_prime r) (zr_prime r)
                          (lit 0) (ndiv (totalDist g) (lit 2)) st fuel) as Hout.
  destruct (drawBeam g (s i) (w0 i) (zr r) _ _ fuel) as [l1 [ | ]];
    [ | discriminate Hdone ].
  destruct (drawBeam g (s_prime r) (w0_prime r) (zr_prime r) _ _ fuel) as [l2 [ | ]];
    [ | discriminate Hdone ].
  cbn [andThen emit fst snd] in *.
  eexists. split; intros st.
  - rewrite !painting_app, !state_after_app.
    set (sa := Canvas.state_after st (draw_axis_and_lens g)).
    destruct (Hin sa eq_refl) as [Hp1 Hs1].
    destruct (Hout (Canvas.state_after sa l1) eq_refl) as [Hp2 Hs2].
    rewrite Hp1, Hp2, Hs2, Hs1. subst sa.
    unfold draw_axis_and_lens, draw_annotations, drawAnnotationLine.
    cbn [Canvas.painting Canvas.paints Canvas.assign Canvas.state_after fold_left app
         Canvas.stroke_style Canvas.fill_style Canvas.line_width Canvas.text_font
         Canvas.text_align].
    reflexivity.
  - rewrite !state_after_app.
    set (sa := Canvas.state_after st (draw_axis_and_lens g)).
    destruct (Hin sa eq_refl) as [Hp1 Hs1].
    destruct (Hout (Canvas.state_after sa l1) eq_refl) as [Hp2 Hs2].
    rewrite Hs2, Hs1. subst sa. reflexivity.
Qed.

End Styles.

Section HeliumNeonScene.

Lemma helium_neon_cycle_ends :
  calculate (convert Scenario.helium_neon) = Some (formulas (convert Scenario.helium_neon))
  /\ snd (updateVisualization 1000 Scenario.helium_neon Scenario.page) = true.
Proof. split; vm_compute; reflexivity. Qed.

Lemma labels_repeat_the_fields_witness :
  calculate (convert Scenario.helium_neon) = Some (formulas (convert Scenario.helium_neon))
  /\ snd (updateVisualization 1000 Scenario.helium_neon Scenario.page) = true
  /\ Canvas.labelled
       (surface (fst (updateVisualization 1000 Scenario.helium_neon Scenario.page)))
       ("zʀ = "
        ++ out_zr_in
             (outputs (fst (updateVisualization 1000 Scenario.helium_neon Scenario.page)))
        ++ " mm").
Proof.
  destruct helium_neon_cycle_ends as [Hc Hd].
  split; [ exact Hc | ]. split; [ exact Hd | ].
  apply (labels_repeat_the_fields 1000 Scenario.helium_neon Scenario.page _ Hc Hd).
Defined.

Lemma styles_set_before_use_witness :
  snd (drawCanvas 1000 800 400 (convert Scenario.helium_neon)
         (formulas (convert Scenario.helium_neon))) = true
  /\ exists rest,
       (forall st : Canvas.Style float,
           Canvas.painting st
             (fst (drawCanvas 1000 800 400 (convert Scenario.helium_neon)
                     (formulas (convert Scenario.helium_neon))))
           = Canvas.stroked "black" (Canvas.line_width st) :: rest)
       /\ (forall st : Canvas.Style float,
              Canvas.state_after st
                (fst (drawCanvas 1000 800 400 (convert Scenario.helium_neon)
                        (formulas (convert Scenario.helium_neon))))
              = {| Canvas.stroke_style := "blue"; Canvas.fill_style := "black";
                   Canvas.line_width := lit 1; Canvas.text_font := "12px Arial";
                   Canvas.text_align := "center" |}).
Proof.
  assert (Hd : snd (drawCanvas 1000 800 400 (convert Scenario.helium_neon)
                      (formulas (convert Scenario.helium_neon))) = true)
    by (vm_compute; reflexivity).
  split; [ exact Hd | ].
  exact (styles_set_before_use 1000 800 400 (convert Scenario.helium_neon)
           (formulas (convert Scenario.helium_neon)) Hd).
Defined.

End HeliumNeonScene.

(* ================================================================== *)
(** ** What [parseFloat] reads *)

Section Reading.

Local Open Scope string_scope.

(** A text whose first character cannot open a number is not a
    number. *)
Lemma not_a_number_text (c : ascii) (rest : string) :
  Parse.opens c = false -> parseFloat (String c rest) = nan.
Proof.
  intros Hc. unfold parseFloat, Parse.read.
  destruct rest as [ | b [ | c2 rest ] ];
    destruct c as [[ | ] [ | ] [ | ] [ | ] [ | ] [ | ] [ | ] [ | ]];
    try discriminate Hc; reflexivity.
Qed.

Lemma unreadable_nan (text : string) :
  Form.unreadable text = true -> parseFloat text = nan.
Proof.
  destruct text as [ | c rest ]; [ reflexivity | ]. cbn [Form.unreadable].
  intros Hc. apply not_a_number_text. now destruct (Parse.opens c).
Qed.

Lemma append_empty (a : string) : a ++ "" = a.
Proof. induction a as [ | c a IH ]; cbn [append]; [ reflexivity | now rewrite IH ]. Qed.

Lemma number_cons (c : ascii) (t : string) (acc : Z) :
  Parse.is_digit c = true ->
  Parse.number acc (String c t) = Parse.number (10 * acc + Parse.digit c) t.
Proof.
  intros Hc. unfold Parse.number. cbn [Parse.digits]. rewrite Hc.
  now destruct (Parse.digits (10 * acc + Parse.digit c) t) as [[v k] r].
Qed.

(** A run of digits is read to its end, and no further. *)
Lemma digits_run (a : string) :
  Parse.all_digits a = true ->
  forall (acc : Z) (t : string),
    match t with String c _ => Parse.is_digit c = false | EmptyString => True end ->
    Parse.digits acc (a ++ t) = (Parse.number acc a, String.length a, t).
Proof.
  unfold Parse.number.
  induction a as [ | d a IH ]; intros Ha acc t Ht.
  - destruct t as [ | c r ]; cbn [append Parse.digits String.length fst];
      [ reflexivity | now rewrite Ht ].
  - cbn [Parse.all_digits] in Ha. apply andb_true_iff in Ha. destruct Ha as [Hd Ha].
    cbn [append Parse.digits String.length]. rewrite Hd.
    rewrite (IH Ha (10 * acc + Parse.digit d)%Z t Ht).
    destruct (Parse.digits (10 * acc + Parse.digit d) a) as [[v k] r]. reflexivity.
Qed.

Lemma digits_all (a : string) :
  Parse.all_digits a = true ->
  forall acc, Parse.digits acc a = (Parse.number acc a, String.length a, "").
Proof.
  intros Ha acc. pose proof (digits_run a Ha acc "" I) as E.
  now rewrite append_empty in E.
Qed.

Lemma digits_concat (a b : string) :
  Parse.all_digits a = true -> Parse.all_digits b = true ->
  Parse.all_digits (a ++ b) = true
  /\ forall acc, Parse.number acc (a ++ b) = Parse.number (Parse.number acc a) b.
Proof.
  intros Ha Hb. induction a as [ | d a IH ].
  - split; [ exact Hb | reflexivity ].
  - cbn [Parse.all_digits] in Ha. apply andb_true_iff in Ha. destruct Ha as [Hd Ha].
    destruct (IH Ha) as [IH1 IH2]. cbn [append Parse.all_digits]. rewrite Hd, IH1.
    split; [ reflexivity | ]. intros acc. rewrite !number_cons by exact Hd. apply IH2.
Qed.

Lemma stops_not_digit (t : string) :
  Parse.stops t = true ->
  match t with String c _ => Parse.is_digit c = false | EmptyString => True end.
Proof.
  destruct t as [ | c r ]; [ trivial | ]. unfold Parse.stops.
  destruct (Parse.is_digit c); [ discriminate | reflexivity ].
Qed.

Lemma stops_no_exponent (t : string) :
  Parse.stops t = true -> Parse.exponent_part t = 0%Z.
Proof.
  destruct t as [ | c r ]; [ reflexivity | ]. unfold Parse.stops, Parse.exponent_part.
  destruct (Parse.is_digit c); [ discriminate | ]. cbn [orb].
  destruct (Ascii.eqb c "e" || Ascii.eqb c "E")%bool; [ discriminate | reflexivity ].
Qed.

Lemma no_infinity (c : ascii) (r : string) :
  Parse.is_digit c = true \/ c = "."%char ->
  String.prefix "Infinity" (String c r) = false.
Proof.
  intros Hc. cbn [String.prefix]. destruct (ascii_dec "I" c) as [<- | _];
    [ destruct Hc; discriminate | reflexivity ].
Qed.

(** A text that starts with a digit or a point is read from its first
    character, as an unsigned literal. *)
Lemma plain_start (c : ascii) (r : string) :
  Parse.is_digit c = true \/ c = "."%char ->
  Parse.read (String c r) = Parse.unsigned false (String c r).
Proof.
  intros Hc. unfold Parse.read. destruct Hc as [Hc | ->].
  - destruct r as [ | b [ | c2 r ] ];
      destruct c as [[ | ] [ | ] [ | ] [ | ] [ | ] [ | ] [ | ] [ | ]];
      try discriminate Hc; reflexivity.
  - destruct r as [ | b [ | c2 r ] ]; reflexivity.
Qed.

Lemma first_of_decimal (a b t : string) :
  Parse.all_digits a = true ->
  exists c r, a ++ "." ++ b ++ t = String c r
              /\ (Parse.is_digit c = true \/ c = "."%char).
Proof.
  intros Ha. destruct a as [ | d a ]; cbn [append].
  - do 2 eexists. split; [ reflexivity | right; reflexivity ].
  - cbn [Parse.all_digits] in Ha. apply andb_true_iff in Ha.
    do 2 eexists. split; [ reflexivity | left; apply Ha ].
Qed.

(** Digits, a point, digits, and then a text that stops the number. *)
Lemma decimal_then_text (a b t : string) :
  Parse.all_digits a = true -> Parse.all_digits b = true -> Parse.stops t = true ->
  Parse.read (a ++ "." ++ b ++ t)
  = if (String.length a + String.length b =? 0)%nat then None
    else Some (Parse.decimal false (Parse.number (Parse.number 0 a) b)
                 (- Z.of_nat (String.length b))).
Proof.
  intros Ha Hb Ht.
  destruct (first_of_decimal a b t Ha) as (c & r & E & Hc).
  rewrite E, (plain_start c r Hc). unfold Parse.unsigned.
  rewrite (no_infinity c r Hc), <- E.
  rewrite (digits_run a Ha 0 ("." ++ b ++ t)) by reflexivity.
  cbn [append].
  rewrite (digits_run b Hb _ t (stops_not_digit t Ht)).
  rewrite (stops_no_exponent t Ht).
  destruct (String.length a + String.length b =? 0)%nat; reflexivity.
Qed.

(** Digits, and then a text that stops the number and is no point. *)
Lemma integer_then_text (c0 : ascii) (a0 t : string) :
  Parse.all_digits (String c0 a0) = true -> Parse.stops t = true ->
  match t with String c _ => c <> "."%char | EmptyString => True end ->
  Parse.read (String c0 a0 ++ t)
  = Some (Parse.decimal false (Parse.number 0 (String c0 a0)) 0).
Proof.
  intros Ha Ht Hp.
  assert (Hc : Parse.is_digit c0 = true).
  { cbn [Parse.all_digits] in Ha. apply andb_true_iff in Ha. apply Ha. }
  assert (E : String c0 a0 ++ t = String c0 (a0 ++ t)) by reflexivity.
  rewrite E, (plain_start c0 _ (or_introl Hc)). unfold Parse.unsigned.
  rewrite (no_infinity c0 _ (or_introl Hc)), <- E.
  rewrite (digits_run _ Ha 0 t (stops_not_digit t Ht)).
  rewrite (stops_no_exponent t Ht). cbn [String.length Nat.eqb].
  destruct t as [ | c r ]; [ reflexivity | ].
  destruct (Ascii.eqb_spec c "."); [ contradiction | ].
  destruct c as [[ | ] [ | ] [ | ] [ | ] [ | ] [ | ] [ | ] [ | ]]; try reflexivity.
  contradiction n. reflexivity.
Qed.

(** X16: [parseFloat] ignores what follows the number.  For digit
    strings [a] and [b] and any text [t] that is empty or starts with a
    character other than a digit, [e] and [E], the text [a.b] followed by
    [t] is read as [a.b]; and [a] followed by [t] is read as [a] when [a]
    is not empty and [t] does not start with a point.  A unit after the
    number is dropped, and so is everything from a decimal comma on. *)
Theorem trailing_text_ignored (a b t : string) :
  Parse.all_digits a = true -> Parse.all_digits b = true -> Parse.stops t = true ->
  parseFloat (a ++ "." ++ b ++ t) = parseFloat (a ++ "." ++ b)
  /\ (a <> "" ->
      match t with String c _ => c <> "."%char | EmptyString => True end ->
      parseFloat (a ++ t) = parseFloat a).
Proof.
  intros Ha Hb Ht. unfold parseFloat. split.
  - rewrite (decimal_then_text a b t Ha Hb Ht).
    pose proof (decimal_then_text a b "" Ha Hb eq_refl) as E.
    rewrite append_empty in E. now rewrite E.
  - intros Hne Hp. destruct a as [ | c0 a0 ]; [ contradiction | ].
    rewrite (integer_then_text c0 a0 t Ha Ht Hp).
    pose proof (integer_then_text c0 a0 "" Ha eq_refl I) as E.
    rewrite append_empty in E. now rewrite E.
Qed.

Lemma trailing_text_ignored_witness :
  Parse.all_digits "632" = true /\ Parse.all_digits "8" = true
  /\ Parse.stops " nm" = true
  /\ parseFloat "632.8 nm" = parseFloat "632.8"
  /\ parseFloat "1,5" = parseFloat "1".
Proof.
  do 3 (split; [ reflexivity | ]). split.
  - apply (trailing_text_ignored "632" "8" " nm"); reflexivity.
  - apply (trailing_text_ignored "1" "" ",5"); try reflexivity; discriminate.
Defined.

End Reading.

(* ================================================================== *)
(** ** The form and the page *)

Section Session.

Import Form.

Local Open Scope string_scope.

Lemma read_type_in (k : key) (text : string) (t : Fields) :
  In (parseFloat text)
     [lambda_value (read (type_in k text t)); f_value (read (type_in k text t));
      s_value (read (type_in k text t)); w0_value (read (type_in k text t))].
Proof. destruct k; cbn; auto. Qed.

(** X17: an edit that leaves a field without a number changes nothing
    on the page.  When the value of a field becomes empty, or a text
    whose first character cannot open a number, the cycle that the edit
    starts stops at the guard: the display fields and the canvas stay as
    they were, showing the results of the earlier field contents, while
    the field holds the new text. *)
Theorem unreadable_edit_changes_nothing (fuel : nat) (k : key) (text : string)
        (d : Document) :
  unreadable text = true ->
  shown (input fuel k text d) = shown d
  /\ busy (input fuel k text d) = busy d
  /\ (busy d = false -> value k (fields (input fuel k text d)) = text).
Proof.
  intros Hu. unfold input. destruct (busy d) eqn:Hb.
  - split; [ reflexivity | ]. split; [ exact Hb | discriminate ].
  - assert (Hn : Valid.unusable (read (type_in k text (fields d)))).
    { apply Valid.not_a_number with (x := parseFloat text);
        [ apply read_type_in | rewrite (unreadable_nan text Hu); reflexivity ]. }
    apply unusable_not_valid, calculate_rejected in Hn.
    destruct (listening d k); unfold cycle; cbn [fields shown busy];
      unfold updateVisualization; rewrite ?Hn; cbn [fst snd negb];
      repeat split; destruct k; reflexivity.
Qed.

Lemma listening_kept (fuel : nat) (k : key) (text : string) (d : Document) (k' : key) :
  listening (input fuel k text d) k' = listening d k'.
Proof.
  unfold input. destruct (busy d); [ reflexivity | ].
  destruct (listening d k); reflexivity.
Qed.

(** Once the page is loaded every input element is listened on. *)
Lemma listening_everywhere (fuel : nat) (edits : list (key * string)) (d : Document)
      (k : key) :
  listening (session fuel edits d) k = true.
Proof.
  unfold session.
  induction edits as [ | e edits IH ] using rev_ind.
  - destruct k; reflexivity.
  - rewrite fold_left_app. cbn [fold_left]. rewrite listening_kept. exact IH.
Qed.

Lemma cycle_shows (fuel : nat) (d : Document) (r : BeamResult float) :
  calculate (convert (read (fields d))) = Some r ->
  outputs (shown (cycle fuel d)) = display r.
Proof.
  intros Hr. unfold cycle, updateVisualization. cbn [shown]. rewrite Hr. reflexivity.
Qed.

(** X18: whenever the form is valid the display shows its results.
    After the page was loaded and any sequence of edits of any of the
    four fields, every cycle having run to its end, if the calculator
    accepts what the four fields hold now, the six display fields are the
    formatted results for exactly these four values: every field is
    listened on, and each cycle reads all four. *)
Theorem display_in_sync (fuel : nat) (edits : list (key * string)) (d : Document)
        (r : BeamResult float) :
  busy (session fuel edits d) = false ->
  calculate (convert (read (fields (session fuel edits d)))) = Some r ->
  outputs (shown (session fuel edits d)) = display r.
Proof.
  destruct edits as [ | e edits _ ] using rev_ind.
  - intros _. unfold session. cbn [fold_left]. unfold DOMContentLoaded.
    set (d' := fold_left addEventListener keys d).
    change (fields (cycle fuel d')) with (fields d'). apply cycle_shows.
  - pose proof (listening_everywhere fuel edits d (fst e)) as Hl.
    unfold session in *. rewrite fold_left_app. cbn [fold_left].
    set (before := fold_left _ edits _) in *.
    unfold input. destruct (busy before) eqn:Hb; [ congruence | ].
    rewrite Hl. intros _.
    set (d' := {| fields := _ |}).
    change (fields (cycle fuel d')) with (fields d'). apply cycle_shows.
Qed.

Lemma unreadable_edit_changes_nothing_witness :
  unreadable "" = true
  /\ shown (input 1000 key_lambda "" (session 1000 [] Example.unloaded))
     = shown (session 1000 [] Example.unloaded).
Proof.
  split; [ reflexivity | ].
  apply (unreadable_edit_changes_nothing 1000 key_lambda ""
           (session 1000 [] Example.unloaded) eq_refl).
Defined.

Lemma display_in_sync_witness :
  let d := session 1000 [(key_f, "abc"); (key_f, "200 mm")] Example.unloaded in
  busy d = false
  /\ calculate (convert (read (fields d))) = Some (formulas (convert (read (fields d))))
  /\ outputs (shown d) = display (formulas (convert (read (fields d)))).
Proof.
  cbv zeta.
  assert (Hb : busy (session 1000 [(key_f, "abc"); (key_f, "200 mm")] Example.unloaded)
               = false) by (vm_compute; reflexivity).
  assert (Hc : calculate
                 (convert (read (fields (session 1000 [(key_f, "abc"); (key_f, "200 mm")]
                                           Example.unloaded))))
               = Some (formulas
                         (convert (read (fields (session 1000
                                                   [(key_f, "abc"); (key_f, "200 mm")]
                                                   Example.unloaded))))))
    by (vm_compute; reflexivity).
  split; [ exact Hb | ]. split; [ exact Hc | ].
  exact (display_in_sync 1000 [(key_f, "abc"); (key_f, "200 mm")] Example.unloaded _
           Hb Hc).
Defined.

End Session.

(* ================================================================== *)
(** ** What the display fields denote *)

Section ReadBack.

Local Open Scope string_scope.

Ltac uint_step IH :=
  cbn [NilEmpty.string_of_uint Parse.all_digits];
  change (Parse.is_digit _) with true;
  cbn [andb]; rewrite number_cons by reflexivity;
  cbn [Pos.of_uint_acc];
  match goal with
  | |- _ /\ Parse.number ?z _ = Zpos (Pos.of_uint_acc _ ?p) =>
      replace z with (Zpos p)
        by (match goal with
            | |- context [Parse.digit ?c] =>
                let v := eval vm_compute in (Parse.digit c) in
                change (Parse.digit c) with v
            end; lia)
  end;
  apply IH.

Lemma uint_digits_acc (d : Decimal.uint) :
  forall acc : positive,
    Parse.all_digits (NilEmpty.string_of_uint d) = true
    /\ Parse.number (Zpos acc) (NilEmpty.string_of_uint d)
       = Zpos (Pos.of_uint_acc d acc).
Proof.
  induction d as [ | d IH | d IH | d IH | d IH | d IH | d IH | d IH | d IH | d IH | d IH ];
    intros acc; [ split; reflexivity | uint_step IH .. ].
Qed.

Lemma uint_digits (d : Decimal.uint) :
  Parse.all_digits (NilEmpty.string_of_uint d) = true
  /\ Parse.number 0 (NilEmpty.string_of_uint d) = Z.of_N (N.of_uint d).
Proof.
  induction d as [ | d IH | d IH | d IH | d IH | d IH | d IH | d IH | d IH | d IH | d IH ];
    [ split; reflexivity | .. ];
    cbn [NilEmpty.string_of_uint Parse.all_digits];
    change (Parse.is_digit _) with true;
    cbn [andb]; rewrite number_cons by reflexivity;
    unfold N.of_uint; cbn [Pos.of_uint Z.of_N];
    [ exact IH | .. ];
    match goal with
    | |- _ /\ Parse.number ?z _ = Zpos (Pos.of_uint_acc _ ?p) =>
        replace z with (Zpos p) by (vm_compute; reflexivity)
    end;
    apply uint_digits_acc.
Qed.

(** The decimal digits of a natural number are digits, and read back as
    the number. *)
Lemma text_digits (n : Z) :
  (0 <= n)%Z ->
  Parse.all_digits (Text.digits n) = true /\ Parse.number 0 (Text.digits n) = n.
Proof.
  intros Hn. unfold Text.digits, NilZero.string_of_uint.
  pose proof (uint_digits (N.to_uint (Z.to_N n))) as [Ha Hv].
  rewrite DecimalN.Unsigned.of_to, Z2N.id in Hv by exact Hn.
  destruct (N.to_uint (Z.to_N n)); split; assumption.
Qed.

Lemma zeros_digits (k : nat) :
  Parse.all_digits (Text.zeros k) = true /\ Parse.number 0 (Text.zeros k) = 0%Z.
Proof.
  induction k as [ | k [IH1 IH2] ]; [ split; reflexivity | ].
  cbn [Text.zeros Parse.all_digits]. rewrite IH1. split; [ reflexivity | ].
  rewrite number_cons by reflexivity. exact IH2.
Qed.

Lemma take_drop_digits (j : nat) (t : string) :
  Parse.all_digits t = true ->
  Parse.all_digits (Text.take j t) = true /\ Parse.all_digits (Text.drop j t) = true.
Proof.
  revert t. induction j as [ | j IH ]; intros [ | c t ] Ht; cbn [Text.take Text.drop];
    try (split; [ reflexivity | exact Ht ]).
  cbn [Parse.all_digits] in *. apply andb_true_iff in Ht. destruct Ht as [Hc Ht].
  destruct (IH t Ht) as [H1 H2]. rewrite Hc, H1. split; [ reflexivity | exact H2 ].
Qed.

(** The text that [toFixed] makes of the integer [n] is the literal
    [n * 10^-fd]. *)
Lemma unsigned_fixed_digits (negative : bool) (n : Z) (fd : nat) :
  (0 <= n)%Z ->
  Parse.unsigned negative (Text.fixed_digits n fd)
  = Some (Parse.decimal negative n (- Z.of_nat fd)).
Proof.
  intros Hn. destruct (text_digits n Hn) as [Hall Hval].
  destruct (digits_first n) as (c & rest & E & Hc).
  unfold Text.fixed_digits. destruct fd as [ | fd' ].
  - unfold Parse.unsigned.
    rewrite E, (no_infinity c rest (or_introl Hc)), <- E.
    rewrite (digits_all _ Hall 0), Hval. rewrite E. reflexivity.
  - set (fd := S fd'). set (m0 := Text.digits n) in *.
    set (m := if (String.length m0 <=? fd)%nat
              then Text.zeros (fd + 1 - String.length m0) ++ m0 else m0).
    assert (Hm : Parse.all_digits m = true /\ Parse.number 0 m = n
                 /\ (fd + 1 <= String.length m)%nat).
    { subst m. destruct (Nat.leb_spec (String.length m0) fd) as [Hle | Hgt].
      - destruct (zeros_digits (fd + 1 - String.length m0)) as [Hz Hz0].
        destruct (digits_concat _ _ Hz Hall) as [Hc1 Hc2].
        rewrite Hc1, Hc2, Hz0, Hval, length_append, length_zeros.
        repeat split. lia.
      - repeat split; [ exact Hall | exact Hval | lia ]. }
    destruct Hm as (Hmall & Hmval & Hmlen).
    set (j := (String.length m - fd)%nat).
    destruct (take_drop_digits j m Hmall) as [Ha Hb].
    set (a := Text.take j m) in *. set (b := Text.drop j m) in *.
    assert (Hab : a ++ b = m) by apply take_drop.
    assert (Hlb : String.length b = fd) by (subst b j; rewrite length_drop; lia).
    assert (Hla : String.length a = j) by (subst a j; apply length_take; lia).
    assert (Hfirst : exists c' r', a = String c' r' /\ Parse.is_digit c' = true).
    { destruct a as [ | c' r' ]; [ cbn in Hla; subst j; lia | ].
      cbn [Parse.all_digits] in Ha. apply andb_true_iff in Ha. now exists c', r'. }
    destruct Hfirst as (c' & r' & Ea & Hc').
    unfold Parse.unsigned.
    assert (Einf : String.prefix "Infinity" (a ++ "." ++ b) = false).
    { rewrite Ea. cbn [append]. apply no_infinity. left. exact Hc'. }
    rewrite Einf.
    rewrite (digits_run a Ha 0 ("." ++ b)) by reflexivity.
    cbn [append]. rewrite (digits_all b Hb).
    destruct (digits_concat a b Ha Hb) as [_ Hnum].
    rewrite <- Hnum, Hab, Hmval, Hla, Hlb.
    assert (Hk : (j + fd =? 0)%nat = false) by (apply Nat.eqb_neq; subst fd; lia).
    rewrite Hk. cbn [Parse.exponent_part]. reflexivity.
Qed.

Lemma nearest_scaled_nonneg (m : positive) (e : Z) (fd : nat) :
  (0 <= Float64.nearest_scaled m e fd)%Z.
Proof.
  unfold Float64.nearest_scaled. destruct e as [ | p | p ].
  - lia.
  - pose proof (Z.pow_pos_nonneg 2 (Zpos p)). pose proof (Z.pow_nonneg 10 (Z.of_nat fd)).
    nia.
  - apply Z.div_pos; [ | apply Z.pow_pos_nonneg; lia ].
    pose proof (Z.pow_nonneg 10 (Z.of_nat fd)). pose proof (Z.pow_nonneg 2 (Zpos p)).
    nia.
Qed.

(** The integer that [toFixed] prints is within a half of the value
    times [10^fd]; [k] scales both to integers. *)
Lemma nearest_scaled_accurate (m : positive) (e : Z) (fd : nat) :
  let n := Float64.nearest_scaled m e fd in
  let k := Z.max 0 (- e) in
  (2 * Z.abs (n * 2 ^ k - Zpos m * 10 ^ Z.of_nat fd * 2 ^ (e + k)) <= 2 ^ k)%Z.
Proof.
  cbv zeta. unfold Float64.nearest_scaled. set (p := (Zpos m * 10 ^ Z.of_nat fd)%Z).
  destruct e as [ | q | q ].
  - change (Z.max 0 (- 0)) with 0%Z. rewrite Z.add_0_r, Z.pow_0_r.
    replace (p * 1 * 1 - p * 1)%Z with 0%Z by ring. change (Z.abs 0) with 0%Z. lia.
  - replace (Z.max 0 (- Zpos q)) with 0%Z by lia.
    rewrite Z.add_0_r, Z.pow_0_r.
    replace (p * 2 ^ Z.pos q * 1 - p * 2 ^ Z.pos q)%Z with 0%Z by ring.
    change (Z.abs 0) with 0%Z. lia.
  - replace (Z.max 0 (- Zneg q)) with (Zpos q) by lia.
    replace (Zneg q + Zpos q)%Z with 0%Z by lia. rewrite Z.pow_0_r, Z.mul_1_r.
    set (K := (2 ^ Zpos q)%Z).
    assert (HK : (0 < K)%Z) by (apply Z.pow_pos_nonneg; lia).
    replace (2 ^ (Zpos q + 1))%Z with (2 * K)%Z
      by (subst K; rewrite Z.pow_add_r by lia; ring).
    pose proof (Z.mul_div_le (2 * p + K) (2 * K) ltac:(lia)) as H1.
    pose proof (Z.mul_succ_div_gt (2 * p + K) (2 * K) ltac:(lia)) as H2.
    set (n := ((2 * p + K) / (2 * K))%Z) in *. lia.
Qed.

Lemma trim_start_sign (t : string) : Parse.trim_start (String "-" t) = String "-" t.
Proof. destruct t as [ | b [ | c t ] ]; reflexivity. Qed.

Lemma read_fixed_digits (negative : bool) (n : Z) (fd : nat) :
  (0 <= n)%Z ->
  Parse.read ((if negative then "-" else "") ++ Text.fixed_digits n fd)
  = Some (Parse.decimal negative n (- Z.of_nat fd)).
Proof.
  intros Hn. pose proof (unsigned_fixed_digits negative n fd Hn) as E.
  destruct negative; cbn [append].
  - unfold Parse.read. rewrite trim_start_sign. exact E.
  - destruct (fixed_digits_first n fd) as (c & rest & Ef & Hc).
    rewrite Ef in *. rewrite (plain_start c rest (or_introl Hc)). exact E.
Qed.

Local Open Scope float_scope.

(** X19: what a display field shows is the computed value, correctly
    rounded to the digits shown.  For a finite double [x = m * 2^e] that
    is not zero and below 1e21 in magnitude, the text [x.toFixed(fd)],
    read as a decimal literal, is [n * 10^-fd] with the sign of [x],
    where the integer [n] differs from [|x| * 10^fd] by at most one
    half. *)
Theorem to_fixed_reads_back (x : float) (fd : nat) (sg : bool) (m : positive) (e : Z) :
  Prim2SF x = S754_finite sg m e ->
  (1e21 <=? abs x) = false ->
  let n := Float64.nearest_scaled m e fd in
  let k := Z.max 0 (- e) in
  Parse.read (Float64.to_fixed x fd) = Some (Parse.decimal sg n (- Z.of_nat fd))
  /\ (2 * Z.abs (n * 2 ^ k - Zpos m * 10 ^ Z.of_nat fd * 2 ^ (e + k)) <= 2 ^ k)%Z.
Proof.
  intros Hx Hsmall. cbv zeta. split; [ | apply nearest_scaled_accurate ].
  unfold Float64.to_fixed. rewrite Hx, Hsmall.
  apply read_fixed_digits, nearest_scaled_nonneg.
Qed.

Lemma to_fixed_reads_back_witness :
  Prim2SF (-0.375) = S754_finite true 6755399441055744 (-54)
  /\ (1e21 <=? abs (-0.375)) = false
  /\ Float64.to_fixed (-0.375) 2 = "-0.38"%string
  /\ Parse.read (Float64.to_fixed (-0.375) 2) = Some (Parse.decimal true 38 (-2)).
Proof.
  assert (Hx : Prim2SF (-0.375) = S754_finite true 6755399441055744 (-54))
    by (vm_compute; reflexivity).
  split; [ exact Hx | ]. split; [ reflexivity | ]. split; [ vm_compute; reflexivity | ].
  apply (to_fixed_reads_back (-0.375) 2 true 6755399441055744 (-54) Hx eq_refl).
Defined.

End ReadBack.

(* ================================================================== *)
(** ** The model of [parseFloat] on known values *)

Section ParseKnownValues.

Local Open Scope float_scope.

(** Prefixes, signs, points and exponents as ECMAScript has them. *)
Lemma parseFloat_known_texts :
  map parseFloat
      ["632.8"; "  12.5mm"; "-3"; ".5"; "1."; "1.e5"; "1e"; "1e+"; "+.5e1";
       "0x10"; "1.2.3"; "-0"; "0,5"; "Infinity"; "-Infinityx"]%string
  = [Float64.literal 632.8; 12.5; -3; 0.5; 1; 100000; 1; 1; 5;
     0; Float64.literal 1.2; -0; 0; infinity; neg_infinity]
  /\ map (fun t => is_nan (parseFloat t)) [""; "abc"; "."; ".e5"; "Inf"; "- 5"; "e5"]%string
     = [true; true; true; true; true; true; true].
Proof. split; vm_compute; reflexivity. Qed.

(** The value is the nearest double, ties to even, with gradual
    underflow and overflow to infinity. *)
Lemma parseFloat_known_roundings :
  map parseFloat
      ["0.1"; "1e23"; "0.30000000000000004"; "1e-9"; "9007199254740993";
       "9007199254740995"; "5e-324"; "2.5e-324"; "2.4703282292062327e-324";
       "1.7976931348623157e308"; "1.797693134862315807e308";
       "1.797693134862315808e308"; "1e400"; "1e-400"]%string
  = [0x1.999999999999ap-4; 0x1.52d02c7e14af6p+76; 0x1.3333333333334p-2;
     0x1.12e0be826d695p-30; 0x1p+53; 0x1.0000000000002p+53; 0x1p-1074; 0x1p-1074;
     0; 0x1.fffffffffffffp+1023; 0x1.fffffffffffffp+1023; infinity; infinity; 0].
Proof. vm_compute. reflexivity. Qed.

End ParseKnownValues.

